(** * Evaluation harness for query disambiguation: oracle, scoring, reduction

    A shallow embedding of [evaluate_query_disambiguation.py].

    Modelling conventions.
    - Python [float] values are idealised as exact rationals ([Q]); the only
      irrational operation, the square root inside [np.std], is taken in the
      reals.  Equality of such values is [Qeq] ([==]).
    - Python exceptions are the constructors of [exn]; a computation that may
      raise returns a [result].
    - A Python [dict] is an insertion-ordered association list with unique
      keys ([dict]); a Python [set] of image ids is a [gset Z].
    - The imported collaborators ([baseline_retrieval], [clue], ...,
      [eval_metrics.precision_at_k], [eval_metrics.avg_query_metrics]) are
      parameters of the sections that use them. *)

From Stdlib Require Import Ascii QArith Qabs Qpower Reals Qreals Lra.
From stdpp Require Import base decidable option list gmap sets strings pretty sorting.

Set Default Proof Using "Type".

(** ** Exceptions and the error monad *)

Inductive exn : Set :=
  | ZeroDivisionError
  | KeyError
  | IndexError
  | ValueError.

Inductive result (A : Type) : Type :=
  | Ok (a : A)
  | Raise (e : exn).
Arguments Ok {A} a.
Arguments Raise {A} e.

#[global] Instance result_ret : MRet result := λ A a, Ok a.
#[global] Instance result_bind : MBind result := λ A B f m,
  match m with Ok a => f a | Raise e => Raise e end.
#[global] Instance result_fmap : FMap result := λ A B f m,
  match m with Ok a => Ok (f a) | Raise e => Raise e end.

Definition is_Ok {A} (m : result A) : Prop := ∃ a, m = Ok a.

(** [for x in l: s = body(s, x)] with an exception escaping from the body. *)
Fixpoint for_each {A S : Type} (body : S → A → result S) (l : list A) (s : S)
    : result S :=
  match l with
  | [] => Ok s
  | x :: l' => s' ← body s x; for_each body l' s'
  end.

(** A comprehension [[f(x) for x in l]] whose element expression may raise. *)
Fixpoint comprehension {A B : Type} (f : A → result B) (l : list A)
    : result (list B) :=
  match l with
  | [] => Ok []
  | x :: l' => y ← f x; ys ← comprehension f l'; Ok (y :: ys)
  end.

(** ** Python containers *)

Section dict.
Context {K V : Type} `{EqDecision K}.

Definition dict := list (K * V).

Fixpoint dict_get (k : K) (d : dict) : option V :=
  match d with
  | [] => None
  | (k', v) :: d' => if decide (k = k') then Some v else dict_get k d'
  end.

(** [d[k] = v]: overwrite in place, or append a new key at the end. *)
Fixpoint dict_set (k : K) (v : V) (d : dict) : dict :=
  match d with
  | [] => [(k, v)]
  | (k', v') :: d' =>
      if decide (k = k') then (k, v) :: d' else (k', v') :: dict_set k v d'
  end.

Definition dict_keys (d : dict) : list K := d.*1.

(** [k in d] *)
Definition dict_mem (k : K) (d : dict) : bool :=
  bool_decide (is_Some (dict_get k d)).

(** [d[k]] as an expression *)
Definition subscript (d : dict) (k : K) : result V :=
  match dict_get k d with
  | Some v => Ok v
  | None => Raise KeyError
  end.
End dict.
Arguments dict : clear implicits.

(** [enumerate(l)] *)
Definition enumerate {A} (l : list A) : list (nat * A) :=
  zip (seq 0 (length l)) l.

(** [range(n)] for a Python int [n] *)
Definition range (n : Z) : list nat := seq 0 (Z.to_nat n).

(** [c[:n]]: the first [n] entries, or all but the last [-n] when [n < 0]. *)
Definition slice_to {A} (n : Z) (c : list A) : list A :=
  if (0 <=? n)%Z then take (Z.to_nat n) c
  else take (length c - Z.to_nat (- n)) c.

(** [l[i]] for [i >= 0] *)
Definition index {A} (l : list A) (i : nat) : result A :=
  match l !! i with
  | Some x => Ok x
  | None => Raise IndexError
  end.

(** [sum(xs)] over ints *)
Definition py_sum (xs : list Z) : Z := foldr Z.add 0%Z xs.

(** [a / b] with [b] a float *)
Definition truediv (a b : Q) : result Q :=
  if Qeq_bool b 0 then Raise ZeroDivisionError else Ok (a / b)%Q.

(** [float(n)] of an int *)
Definition float (n : Z) : Q := inject_Z n.

(** *** [sorted(l, key = f, reverse = True)]

    The keys are computed once, and the sort is stable also under
    [reverse = True]: elements with equal keys keep their order in [l]. *)

Fixpoint insert_desc {A} (x : Q * A) (l : list (Q * A)) : list (Q * A) :=
  match l with
  | [] => [x]
  | y :: l' =>
      if Qle_bool y.1 x.1 then x :: y :: l' else y :: insert_desc x l'
  end.

Definition sort_desc {A} (l : list (Q * A)) : list (Q * A) :=
  foldr insert_desc [] l.

Definition sorted_reverse {A} (key : A → result Q) (l : list A)
    : result (list A) :=
  ks ← comprehension key l;
  Ok (sort_desc (zip ks l)).*2.

(** ** Cluster selection oracles *)

Record query : Type := Query {
  img_id : Z;
  relevant : gset Z;
  ignore : option (gset Z)
}.

Definition cluster := list Z.

(** The expression on line 24. *)
Definition precision (q : query) (c : cluster) : result Q :=
  truediv
    (float (py_sum ((λ _, 1%Z) <$> filter (λ id, id ∈ relevant q) c)))
    (float (Z.of_nat (length c))).

Definition select_body (q : query) (min_precision : Q)
    (selection : dict nat Q) (ic : nat * cluster) : result (dict nat Q) :=
  p ← precision q ic.2;
  Ok (if Qle_bool min_precision p then dict_set ic.1 p selection
      else selection).

Definition select_clusters_by_precision (q : query) (clusters : list cluster)
    (min_precision : Q) : result (list nat) :=
  selection ← for_each (select_body q min_precision) (enumerate clusters) [];
  sorted_reverse (subscript selection) (dict_keys selection).

Definition default_min_precision : Q := 0.5.

Definition select_best_cluster (q : query) (clusters : list cluster)
    : result (list nat) :=
  take 1 <$> select_clusters_by_precision q clusters 0.

(** ** The benchmark driver (lines 94-134) *)

(** [s.lower()] on ASCII strings *)
Definition lower_ascii (a : ascii) : ascii :=
  let n := nat_of_ascii a in
  if (65 <=? n) && (n <=? 90) then ascii_of_nat (n + 32) else a.

Fixpoint lower (s : string) : string :=
  match s with
  | EmptyString => EmptyString
  | String a s' => String (lower_ascii a) (lower s')
  end.

(** [dict(items)] and dictionary comprehensions: later items overwrite. *)
Definition dict_of_items {K V} `{EqDecision K} (items : list (K * V)) : dict K V :=
  foldl (λ d kv, dict_set kv.1 kv.2 d) [] items.

(** [np.mean(xs)] and [np.std(xs)] (population standard deviation, the
    default [ddof = 0]).  The mean of no values, numpy's [nan], is not
    represented: the driver never takes one. *)
Definition np_mean (xs : list Q) : Q :=
  (foldr Qplus 0 xs / inject_Z (Z.of_nat (length xs)))%Q.

Definition np_var (xs : list Q) : Q :=
  np_mean ((λ x, Qabs (x - np_mean xs) ^ 2)%Q <$> xs).

Definition np_std (xs : list Q) : R := sqrt (Q2R (np_var xs)).

(** [np.mean(rows, axis = 0)]: the mean of each column.  No rows give a
    scalar, which has no entries to index; rows of unequal lengths are
    refused. *)
Definition np_mean_axis0 (rows : list (list Q)) : result (list Q) :=
  match rows with
  | [] => Ok []
  | r0 :: _ =>
      if forallb (λ r, length r =? length r0) rows
      then Ok ((λ j, np_mean ((λ r, nth j r 0%Q) <$> rows)) <$> seq 0 (length r0))
      else Raise ValueError
  end.

(** One argument tuple of [precision_at_k]: [(ks, relevant, retrieved,
    ignore)]. *)
Definition score_arg : Type := list nat * gset Z * list Z * gset Z.

(** One entry of the argument of [avg_query_metrics]. *)
Record scored : Type := Scored {
  s_relevant : gset Z;
  s_retrieved : list Z;
  s_ignore : gset Z
}.

Definition selector : Type := query → list cluster → result (list nat).

(** Lines 104-105: the policy chosen by [--multiple], behind the preview
    truncation [c[:args.num_preview]]. *)
Definition select_clusters_func (multiple : bool) : selector :=
  if multiple
  then λ q clusters, select_clusters_by_precision q clusters default_min_precision
  else select_best_cluster.

Definition select_clusters (multiple : bool) (num_preview : Z) : selector :=
  λ q clusters,
    select_clusters_func multiple q (slice_to num_preview <$> clusters).

Definition bundle : Type := dict string Q.

(** [metrics[method][-1]['P@{}'.format(pk)] = precisions[method][-1][pk - 1]]
    for [pk] in [(1, 10, 50, 100)], on the bundle and curve just appended. *)
Definition P_at (pk : nat) : string := "P@" +:+ pretty pk.

Definition inject_P (curve : list Q) (b : bundle) : result bundle :=
  for_each (λ b pk, v ← index curve (pk - 1); Ok (dict_set (P_at pk) v b))
           [1; 10; 50; 100] b.

(** [lists.append(x)] behind [if method not in d: d[method] = []]. *)
Definition append_to {V} (method : string) (x : V) (d : dict string (list V))
    : dict string (list V) :=
  dict_set method (default [] (dict_get method d) ++ [x]) d.

(** Lines 130 and 134: one table row per method, one entry per metric name
    of the method's first bundle, reduced by [f] over all its bundles. *)
Definition reduce {X} (f : list Q → X) (metrics : dict string (list bundle))
    : result (dict string (dict string X)) :=
  dict_of_items <$>
    comprehension (λ ml : string * list bundle,
      first ← index ml.2 0;
      row ← comprehension (λ metric,
               vals ← comprehension (λ m : bundle, subscript m metric) ml.2;
               Ok (metric, f vals))
             (dict_keys first);
      Ok (ml.1, dict_of_items row))
    metrics.

(** Lines 84-92: the keyword parameters of each algorithm, collected from
    the parsed command line [vars(args).items()]; an argument left unset has
    value [None]. *)

(** [s.split('_', 1)] when it has two components *)
Fixpoint split_once (s : string) : option (string * string) :=
  match s with
  | EmptyString => None
  | String a s' =>
      if Ascii.eqb a "_" then Some (EmptyString, s')
      else match split_once s' with
           | Some (l, r) => Some (String a l, r)
           | None => None
           end
  end.

Definition algo_names : list string := ["aid"; "clue"; "hard-select"].

Definition parse_body {V} (algo_params : dict string (dict string V))
    (item : string * option V) : dict string (dict string V) :=
  match split_once item.1, item.2 with
  | Some (a, p), Some v =>
      let algo_name := lower a in
      if bool_decide (algo_name ∈ algo_names)
      then dict_set algo_name
             (dict_set p v (default [] (dict_get algo_name algo_params)))
             algo_params
      else algo_params
  | _, _ => algo_params
  end.

Definition parse_algo_params {V} (items : list (string * option V))
    : dict string (dict string V) :=
  foldl parse_body [] items.

Section harness.
(** Query identifiers, the feature matrix, keyword parameters of a method,
    ranking distances, and whatever state the methods carry from one call
    to the next (the global random generator seeded on line 49). *)
Context {QId : Type} `{EqDecision QId} {features params dist W : Type}.

Definition retrieval : Type := dict QId (list Z * list dist).

Definition method_fn : Type :=
  features → dict QId query → selector → params → W → result retrieval * W.

Context (baseline_retrieval clue hard_cluster_selection
           automatic_image_disambiguation : method_fn).
Context (precision_at_k : list nat → gset Z → list Z → gset Z → list Q).
Context (avg_query_metrics : dict QId scored → bool → bundle).
Context (no_params : params).

(** Lines 38-43 *)
Definition METHODS : dict string method_fn :=
  [("Baseline", baseline_retrieval);
   ("CLUE", clue);
   ("Hard-Select", hard_cluster_selection);
   ("AID", automatic_image_disambiguation)].

(** What the driver does that its collaborators can observe, in order. *)
Inductive event : Type :=
  | EvRound (r : nat)
  | EvInvoke (method : string) (sel : selector) (p : params)
  | EvScore (args : list score_arg)
  | EvAggregate (arg : dict QId scored) (include_prec : bool).

Record world : Type := World { ext : W; log : list event }.

Definition M (A : Type) : Type := world → result A * world.

#[global] Instance M_ret : MRet M := λ A a w, (Ok a, w).
#[global] Instance M_bind : MBind M := λ A B f m w,
  match m w with
  | (Ok a, w') => f a w'
  | (Raise e, w') => (Raise e, w')
  end.

Definition lift {A} (r : result A) : M A := λ w, (r, w).

Definition emit (e : event) : M unit :=
  λ w, (Ok (), World (ext w) (log w ++ [e])).

Definition call (f : W → result retrieval * W) : M retrieval :=
  λ w, let '(r, x) := f (ext w) in (r, World x (log w)).

Fixpoint for_eachM {A S : Type} (body : S → A → M S) (l : list A) (s : S)
    : M S :=
  match l with
  | [] => mret s
  | x :: l' => s' ← body s x; for_eachM body l' s'
  end.

(** The generator on line 117 *)
Definition score_args (queries : dict QId query) (retrieved : retrieval)
    : result (list score_arg) :=
  comprehension (λ item : QId * (list Z * list dist),
    q ← subscript queries item.1;
    Ok (seq 1 100, relevant q, item.2.1,
        {[img_id q]} ∪ match ignore q with Some s => s | None => ∅ end))
  retrieved.

(** The dictionary comprehension on lines 122-126 *)
Definition aggregate_arg (queries : dict QId query) (retrieved : retrieval)
    : result (dict QId scored) :=
  dict_of_items <$>
    comprehension (λ item : QId * query,
      r ← subscript retrieved item.1;
      Ok (item.1,
          Scored (relevant item.2) r.1
            ({[img_id item.2]}
               ∪ match ignore item.2 with Some s => s | None => ∅ end)))
    queries.

Record args : Type := Args {
  methods : list string;
  num_preview : Z;
  multiple : bool;
  rounds : Z;
  show_sd : bool
}.

Definition tables : Type :=
  dict string (list bundle) * dict string (list (list Q)).

(** Lines 109-128: one method in one round. *)
Definition method_step (a : args) (algo_params : dict string params)
    (feats : features) (queries : dict QId query)
    (st : tables) (method : string) : M tables :=
  p ← lift (if dict_mem (lower method) algo_params
            then subscript algo_params (lower method)
            else Ok no_params);
  f ← lift (subscript METHODS method);
  let sel := select_clusters (multiple a) (num_preview a) in
  _ ← emit (EvInvoke method sel p);
  retrieved ← call (f feats queries sel p);
  sargs ← lift (score_args queries retrieved);
  _ ← emit (EvScore sargs);
  curve ← lift (np_mean_axis0
    ((λ t : score_arg, precision_at_k t.1.1.1 t.1.1.2 t.1.2 t.2) <$> sargs));
  let precisions := append_to method curve st.2 in
  arg ← lift (aggregate_arg queries retrieved);
  _ ← emit (EvAggregate arg false);
  b ← lift (inject_P curve (avg_query_metrics arg false));
  mret (append_to method b st.1, precisions).

(** Lines 102-128 *)
Definition run_benchmarks (a : args) (algo_params : dict string params)
    (feats : features) (queries : dict QId query) : M tables :=
  for_eachM (λ st r,
      _ ← emit (EvRound r);
      for_eachM (method_step a algo_params feats queries) (methods a) st)
    (range (rounds a)) ([], []).

(** Lines 96-134: the tables handed to [print_metrics], or nothing when
    there is no query. *)
Definition main (a : args) (algo_params : dict string params)
    (feats : features) (queries : dict QId query)
    : M (option (dict string (dict string Q)
                 * option (dict string (dict string R)))) :=
  if decide (length queries = 0) then mret None
  else
    st ← run_benchmarks a algo_params feats queries;
    means ← lift (reduce np_mean st.1);
    sds ← (if show_sd a
           then lift (Some <$> reduce np_std st.1)
           else mret None);
    mret (Some (means, sds)).
(** *** Vocabulary for statements about runs *)

(** [triple m P Φ]: whatever the starting world, [m] only appends events
    satisfying [P] to the log, and a value it returns satisfies [Φ]. *)
Definition triple {A} (m : M A) (P : event → Prop) (Φ : A → Prop) : Prop :=
  ∀ w, ∃ evs, log (m w).2 = log w ++ evs ∧ Forall P evs ∧
              ∀ a, (m w).1 = Ok a → Φ a.

(** [rejected_before_rounds m w]: started in [w], [m] raises without having
    logged anything, that is, before the first round begins. *)
Definition rejected_before_rounds {A} (m : M A) (w : world) : Prop :=
  (∃ e, (m w).1 = Raise e) ∧ log (m w).2 = log w.
End harness.

(** ** Vocabulary of the statements *)

(** What a reader of the log sees of an event. *)
Inductive tag : Set :=
  | TRound (r : nat)
  | TInvoke (method : string)
  | TScore (queries : nat)
  | TAggregate (queries : nat).

Definition event_tag {QId params} (e : @event QId params) : tag :=
  match e with
  | EvRound r => TRound r
  | EvInvoke m _ _ => TInvoke m
  | EvScore sargs => TScore (length sargs)
  | EvAggregate arg _ => TAggregate (length arg)
  end.

(** The exact value of the quotient on line 24 for a non-empty cluster:
    entries of [c] lying in [relevant], counted with repetition, over the
    length of [c]. *)
Definition hits (q : query) (c : cluster) : nat :=
  length (filter (λ id, id ∈ relevant q) c).

Definition ratio (q : query) (c : cluster) : Q :=
  (inject_Z (Z.of_nat (hits q c)) / inject_Z (Z.of_nat (length c)))%Q.

(** The quotient as the specification words it: the cardinality of the set
    of ids of [c] that lie in [relevant], over the length of [c]. *)
Definition set_precision (q : query) (c : cluster) : Q :=
  (inject_Z (Z.of_nat (size (list_to_set c ∩ relevant q : gset Z)))
   / inject_Z (Z.of_nat (length c)))%Q.

(** [qualifies q cl t i]: [i] indexes a cluster of precision at least [t]. *)
Definition qualifies (q : query) (cl : list cluster) (t : Q) (i : nat) : Prop :=
  ∃ c p, cl !! i = Some c ∧ precision q c = Ok p ∧ (t <= p)%Q.

(** [ranks_before q cl i j]: cluster [i] has strictly larger precision than
    cluster [j], or the same precision and a smaller index. *)
Definition ranks_before (q : query) (cl : list cluster) (i j : nat) : Prop :=
  ∃ ci cj pi pj,
    cl !! i = Some ci ∧ cl !! j = Some cj ∧
    precision q ci = Ok pi ∧ precision q cj = Ok pj ∧
    ((pj < pi)%Q ∨ (pi == pj ∧ i < j)).

(** [before x y]: the decorated entry [x] ranks strictly before [y], by key
    descending and, on equal keys, by position ascending. *)
Definition before (x y : Q * nat) : Prop :=
  (y.1 < x.1)%Q ∨ (x.1 == y.1 ∧ x.2 < y.2).

(** The dictionary [selection] after the loop started at index [k]. *)
Fixpoint kept (q : query) (t : Q) (k : nat) (cl : list cluster) : dict nat Q :=
  match cl with
  | [] => []
  | c :: cl' =>
      (if Qle_bool t (ratio q c) then [(k, ratio q c)] else [])
        ++ kept q t (S k) cl'
  end.

(** The selection of a call on non-empty clusters, in closed form. *)
Definition decorated (q : query) (t : Q) (cl : list cluster) : list (Q * nat) :=
  sort_desc (prod_swap <$> kept q t 0 cl).

(** [uniform metrics]: the table is a well-formed dictionary, every method
    has at least one bundle, and every bundle of a method defines the metric
    names of the method's first bundle. *)
Definition uniform (metrics : dict string (list bundle)) : Prop :=
  NoDup (dict_keys metrics) ∧
  Forall (λ ml : string * list bundle,
    ∃ first : bundle, ml.2 !! 0 = Some first ∧ NoDup (dict_keys first) ∧
      Forall (λ m : bundle,
        ∀ k, k ∈ dict_keys first → is_Some (dict_get k m)) ml.2) metrics.

(** A table with every value brought to lowest terms. *)
Definition lowest_terms (t : dict string (dict string Q))
    : dict string (dict string Q) :=
  map (λ row : string * dict string Q,
         (row.1, map (λ kv : string * Q, (kv.1, Qred kv.2)) row.2)) t.

(** [passes q cl t i]: the test [precision >= min_precision] of line 25 for
    the cluster at index [i]. *)
Definition passes (q : query) (cl : list cluster) (t : Q) (i : nat) : bool :=
  match cl !! i with
  | Some c => match precision q c with
              | Ok p => Qle_bool t p
              | Raise _ => false
              end
  | None => false
  end.

(** [has_char a s]: the character [a] occurs in [s]. *)
Fixpoint has_char (a : ascii) (s : string) : bool :=
  match s with
  | EmptyString => false
  | String b s' => Ascii.eqb a b || has_char a s'
  end.

(** The parameter a command-line item contributes to [algo_params[algo][p]],
    if any, and the last such contribution of a list of items. *)
Definition contributes {V} (algo p : string) (item : string * option V)
    : option V :=
  match split_once item.1, item.2 with
  | Some (a, p'), Some v =>
      if bool_decide (lower a = algo ∧ p' = p ∧ algo ∈ algo_names)
      then Some v else None
  | _, _ => None
  end.

Definition last_contribution {V} (algo p : string)
    (items : list (string * option V)) : option V :=
  foldl (λ acc item,
           match contributes algo p item with Some v => Some v | None => acc end)
        None items.

(** The kind of an event, and the order in which a complete run logs them:
    round after round, and within a round method after method. *)
Inductive kind : Set :=
  | KRound (r : nat)
  | KInvoke (method : string)
  | KScore
  | KAggregate.

Definition event_kind {QId params} (e : @event QId params) : kind :=
  match e with
  | EvRound r => KRound r
  | EvInvoke m _ _ => KInvoke m
  | EvScore _ => KScore
  | EvAggregate _ _ => KAggregate
  end.

Definition sweep_schedule (ms : list string) : list kind :=
  m ← ms; [KInvoke m; KScore; KAggregate].

Definition schedule (rounds : list nat) (ms : list string) : list kind :=
  r ← rounds; KRound r :: sweep_schedule ms.

(** [follows m sched]: whatever the starting world, the kinds of the events
    [m] logs form a prefix of [sched], and all of [sched] when [m] returns. *)
Definition follows {QId params W A} (m : @M QId params W A)
    (sched : list kind) : Prop :=
  ∀ w, ∃ evs, log (m w).2 = log w ++ evs ∧
              event_kind <$> evs `prefix_of` sched ∧
              (is_Ok (m w).1 → event_kind <$> evs = sched).

(** [unit_interval x]: [0 <= x <= 1]. *)
Definition unit_interval (x : Q) : Prop := (0 <= x <= 1)%Q.

(** ** Example data *)

Definition tie_query : query := Query 0 {[1; 2; 3; 4; 11; 12; 13; 14]}%Z None.
Definition tie_clusters : list cluster :=
  [[1; 2; 3; 4; 5]; [11; 12; 13; 14; 15]]%Z.

(** Two methods, three rounds; method [A] scores [P@10] 0.2, 0.4 and 0.6. *)
Definition three_rounds : dict string (list bundle) :=
  [("A", [[("MAP", 0.3); ("P@10", 0.2)];
          [("MAP", 0.3); ("P@10", 0.4)];
          [("MAP", 0.6); ("P@10", 0.6)]]);
   ("B", [[("MAP", 0.1); ("P@10", 0.5)];
          [("MAP", 0.2); ("P@10", 0.5)];
          [("MAP", 0.3); ("P@10", 0.5)]])]%Q.

Definition toy_queries : dict nat query :=
  [(0, Query 100 {[1; 2; 3]}%Z None);
   (1, Query 200 {[4; 5]}%Z (Some {[6%Z]}))].

(** A method that ranks the same ids for every query and counts its calls. *)
Definition toy_method (ranking : list Z) : @method_fn nat unit unit Q nat :=
  λ _ queries _ _ calls,
    (Ok ((λ kq : nat * query, (kq.1, (ranking, []))) <$> queries), S calls).

(** A stand-in for [eval_metrics.precision_at_k], which is not part of the
    driver: it drops the excluded ids from the ranking and reports, for each
    [k], the relevant ids among the first [k] remaining ones over [k]. *)
Definition toy_precision_at_k (ks : list nat) (rel : gset Z) (ret : list Z)
    (exclude : gset Z) : list Q :=
  let filtered := filter (λ id, id ∉ exclude) ret in
  (λ k, inject_Z (Z.of_nat (length (filter (λ id, id ∈ rel) (take k filtered))))
        / inject_Z (Z.of_nat k))%Q <$> ks.

(** A stand-in for [eval_metrics.avg_query_metrics] that only reports the
    number of queries it was given. *)
Definition toy_avg_query_metrics (arg : dict nat scored) (include_prec : bool)
    : bundle :=
  [("queries", inject_Z (Z.of_nat (length arg)))].

Definition toy_args (ms : list string) : args := Args ms 10 false 2 false.

Definition toy_run (ms : list string) : @M nat unit nat tables :=
  run_benchmarks (toy_method [100; 1; 9; 2]%Z) (toy_method [6; 4; 200]%Z)
    (toy_method []) (toy_method []) toy_precision_at_k toy_avg_query_metrics tt
    (toy_args ms) [] tt toy_queries.

Definition toy_step (method : string) : @M nat unit nat tables :=
  method_step (toy_method [100; 1; 9; 2]%Z) (toy_method [6; 4; 200]%Z)
    (toy_method []) (toy_method []) toy_precision_at_k toy_avg_query_metrics tt
    (toy_args [method]) [] tt toy_queries ([], []) method.

Definition toy_world : @world nat unit nat := World 0 [].

Definition toy_tables : tables :=
  match (toy_step "Baseline" toy_world).1 with
  | Ok st => st
  | Raise _ => ([], [])
  end.

Definition toy_run_tables : tables :=
  match (toy_run ["Baseline"; "CLUE"] toy_world).1 with
  | Ok st => st
  | Raise _ => ([], [])
  end.

(** ** Facts about the containers *)

Section dict_facts.
Context {K V : Type} `{EqDecision K}.
Implicit Types (d : dict K V) (k : K) (v : V).

Lemma dict_get_None d k : dict_get k d = None ↔ k ∉ dict_keys d.
Proof.
  unfold dict_keys. induction d as [|[k' v'] d IH]; simpl.
  - split; [intros _; apply not_elem_of_nil | done].
  - rewrite not_elem_of_cons. case_decide; subst.
    + split; [done | intros [? _]; done].
    + rewrite IH. tauto.
Qed.

Lemma dict_get_Some_elem d k v : dict_get k d = Some v → (k, v) ∈ d.
Proof.
  induction d as [|[k' v'] d IH]; simpl; [done|].
  case_decide; subst.
  - intros [= ->]. left.
  - intros ?. right. auto.
Qed.

Lemma dict_get_elem d k v :
  NoDup (dict_keys d) → (k, v) ∈ d → dict_get k d = Some v.
Proof.
  unfold dict_keys. induction d as [|[k' v'] d IH]; simpl.
  - intros _ ?%elem_of_nil. done.
  - rewrite NoDup_cons. intros [Hk Hd] [[= -> ->]|Hin]%elem_of_cons.
    + by rewrite decide_True.
    + rewrite decide_False; [auto|].
      intros ->. apply Hk. apply list_elem_of_fmap. by exists (k', v).
Qed.

Lemma dict_set_fresh d k v : k ∉ dict_keys d → dict_set k v d = d ++ [(k, v)].
Proof.
  unfold dict_keys. induction d as [|[k' v'] d IH]; simpl; [done|].
  rewrite not_elem_of_cons. intros [? ?].
  rewrite decide_False by done. by rewrite IH.
Qed.

Lemma dict_get_set_eq d k v : dict_get k (dict_set k v d) = Some v.
Proof.
  induction d as [|[k' v'] d IH]; simpl.
  - by rewrite decide_True.
  - case_decide; simpl.
    + by rewrite decide_True.
    + by rewrite decide_False.
Qed.

Lemma dict_get_set_ne d k k' v :
  k ≠ k' → dict_get k' (dict_set k v d) = dict_get k' d.
Proof.
  intros Hne. induction d as [|[k0 v0] d IH]; simpl.
  - by rewrite decide_False.
  - case_decide; simpl; subst.
    + by rewrite !decide_False.
    + by rewrite IH.
Qed.

Lemma subscript_Ok d k v : subscript d k = Ok v ↔ dict_get k d = Some v.
Proof. unfold subscript. destruct (dict_get k d); naive_solver. Qed.

(** Reading back every key of a dictionary yields its values, in order. *)
Lemma comprehension_subscript_keys d :
  NoDup (dict_keys d) → comprehension (subscript d) (dict_keys d) = Ok d.*2.
Proof.
  intros Hnd.
  assert (∀ d', d' ⊆ d →
    comprehension (subscript d) (dict_keys d') = Ok d'.*2) as Hgen.
  { induction d' as [|[k v] d' IH]; intros Hsub; simpl; [done|].
    assert (subscript d k = Ok v) as ->.
    { apply subscript_Ok, dict_get_elem; [done | apply Hsub; left]. }
    simpl. rewrite IH; [done|]. intros x Hx. apply Hsub. by right. }
  by apply Hgen.
Qed.
End dict_facts.

Lemma ret_bind {A B} (a : A) (f : A → result B) : Ok a ≫= f = f a.
Proof. reflexivity. Qed.

Lemma bind_Ok {A B} (m : result A) (f : A → result B) b :
  m ≫= f = Ok b ↔ ∃ a, m = Ok a ∧ f a = Ok b.
Proof.
  destruct m as [a|e]; simpl; split; [by eauto | | done |].
  - by intros (?&[= <-]&?).
  - by intros (?&?&?).
Qed.

Lemma fmap_Ok {A B} (f : A → B) (m : result A) b :
  f <$> m = Ok b ↔ ∃ a, m = Ok a ∧ b = f a.
Proof.
  destruct m as [a|e]; simpl; split; [|by intros (?&[= <-]&->)|done|].
  - intros [= <-]. by eexists.
  - by intros (?&?&?).
Qed.

Lemma StronglySorted_fmap_elem {A B} (R1 : relation A) (R2 : relation B)
    (f : A → B) (l : list A) :
  StronglySorted R1 l →
  (∀ x y, x ∈ l → y ∈ l → R1 x y → R2 (f x) (f y)) →
  StronglySorted R2 (f <$> l).
Proof.
  induction 1 as [|x l Hl IH Hx]; intros Hf; simpl; constructor.
  - apply IH. intros y z Hy Hz. apply Hf; by right.
  - apply Forall_fmap, Forall_forall. intros y Hy. simpl.
    apply Hf; [left | by right |]. rewrite Forall_forall in Hx. auto.
Qed.

(** ** Facts about [sorted(..., reverse = True)] *)

Section sort_facts.
Context {A : Type}.
Implicit Types (x : Q * A) (l : list (Q * A)).

Lemma insert_desc_Permutation x l : insert_desc x l ≡ₚ x :: l.
Proof.
  induction l as [|y l IH]; simpl; [done|].
  destruct (Qle_bool y.1 x.1); [done|].
  rewrite IH. apply Permutation_swap.
Qed.

Lemma sort_desc_Permutation l : sort_desc l ≡ₚ l.
Proof.
  induction l as [|x l IH]; simpl; [done|].
  by rewrite insert_desc_Permutation, IH.
Qed.
End sort_facts.

Lemma insert_desc_sorted (x : Q * nat) (l : list (Q * nat)) :
  StronglySorted before l →
  Forall (λ y, x.2 < y.2) l →
  StronglySorted before (insert_desc x l).
Proof.
  induction 1 as [|y l Hl IH Hy]; intros Hx; simpl.
  - repeat constructor.
  - apply Forall_cons in Hx as [Hxy Hx].
    destruct (Qle_bool y.1 x.1) eqn:Hle.
    + apply Qle_bool_iff in Hle.
      assert (before x y) as Hb.
      { apply Qle_lteq in Hle as [?|?]; [by left | right; split; [by symmetry|done]]. }
      constructor; [by constructor|].
      constructor; [done|].
      rewrite Forall_forall in Hy, Hx. apply Forall_forall. intros z Hz.
      specialize (Hy z Hz). specialize (Hx z Hz).
      assert (z.1 <= x.1)%Q as Hzx.
      { destruct Hy as [?|[He _]]; [|by rewrite <-He].
        apply Qlt_le_weak. by eapply Qlt_le_trans. }
      apply Qle_lteq in Hzx as [?|?]; [by left | right; split; [by symmetry|done]].
    + assert (x.1 < y.1)%Q as Hlt.
      { apply Qnot_le_lt. intros ?%Qle_bool_iff. congruence. }
      constructor; [by apply IH|].
      rewrite insert_desc_Permutation. constructor; [by left | done].
Qed.

Lemma sort_desc_sorted (l : list (Q * nat)) :
  StronglySorted (λ x y, x.2 < y.2) l → StronglySorted before (sort_desc l).
Proof.
  induction 1 as [|x l Hl IH Hx]; simpl; [constructor|].
  apply insert_desc_sorted; [done|]. by rewrite sort_desc_Permutation.
Qed.

(** ** Facts about the oracles *)

Lemma py_sum_ones {A} (l : list A) : py_sum ((λ _, 1%Z) <$> l) = Z.of_nat (length l).
Proof. unfold py_sum. induction l as [|x l IH]; csimpl; [done|]. rewrite IH. lia. Qed.

Lemma precision_empty q : precision q [] = Raise ZeroDivisionError.
Proof. reflexivity. Qed.

Lemma precision_nonempty q c : c ≠ [] → precision q c = Ok (ratio q c).
Proof.
  intros Hc. unfold precision, truediv, float.
  destruct (Qeq_bool _ 0) eqn:Hz.
  - apply Qeq_bool_iff in Hz. change 0%Q with (inject_Z 0) in Hz.
    apply inject_Z_injective in Hz. destruct c; [done | discriminate Hz].
  - by rewrite py_sum_ones.
Qed.

Lemma ratio_nonneg q c : (0 <= ratio q c)%Q.
Proof.
  unfold ratio. destruct c as [|x c].
  - unfold hits. simpl. done.
  - apply Qle_shift_div_l.
    + change 0%Q with (inject_Z 0). rewrite <-Zlt_Qlt. simpl. lia.
    + rewrite Qmult_0_l. change 0%Q with (inject_Z 0). rewrite <-Zle_Qle. lia.
Qed.

Lemma kept_elem q t cl : ∀ k i p,
  (i, p) ∈ kept q t k cl ↔
  ∃ c, k ≤ i ∧ cl !! (i - k) = Some c ∧ p = ratio q c ∧ (t <= p)%Q.
Proof.
  induction cl as [|c cl IH]; intros k i p; simpl.
  - split; [by intros ?%elem_of_nil | by intros (?&?&?&?)].
  - rewrite elem_of_app, IH. split.
    + intros [Hin|(c'&?&Hl&?&?)].
      * destruct (Qle_bool t (ratio q c)) eqn:Hle; [|by apply elem_of_nil in Hin].
        apply list_elem_of_singleton in Hin as [= -> ->].
        exists c. rewrite Nat.sub_diag. split_and!; [done..|by apply Qle_bool_iff].
      * exists c'. split_and!; [lia| |done..].
        by replace (i - k) with (S (i - S k)) by lia.
    + intros (c'&Hk&Hl&->&Hle). destruct (decide (i = k)) as [->|].
      * left. rewrite Nat.sub_diag in Hl. simplify_eq/=.
        apply Qle_bool_iff in Hle as ->. left.
      * right. exists c'. split_and!; [lia| |done..].
        by replace (i - k) with (S (i - S k)) in Hl by lia.
Qed.

Lemma kept_sorted q t cl k :
  StronglySorted (λ x y : nat * Q, x.1 < y.1) (kept q t k cl).
Proof.
  revert k. induction cl as [|c cl IH]; intros k; simpl; [constructor|].
  destruct (Qle_bool t (ratio q c)); simpl; [|done].
  constructor; [done|]. apply Forall_forall. intros [i p] Hin.
  apply kept_elem in Hin as (?&?&_). simpl. lia.
Qed.

Lemma select_body_nonempty q t sel i c :
  c ≠ [] →
  select_body q t sel (i, c)
  = Ok (if Qle_bool t (ratio q c) then dict_set i (ratio q c) sel else sel).
Proof. intros Hc. unfold select_body. simpl. by rewrite precision_nonempty. Qed.

Lemma select_body_empty q t sel i :
  select_body q t sel (i, []) = Raise ZeroDivisionError.
Proof. reflexivity. Qed.

Lemma for_each_select q t cl : ∀ k acc,
  Forall (λ c, c ≠ []) cl →
  (∀ i, i ∈ dict_keys acc → i < k) →
  for_each (select_body q t) (zip (seq k (length cl)) cl) acc
  = Ok (acc ++ kept q t k cl).
Proof.
  induction cl as [|c cl IH]; intros k acc Hne Hacc.
  - simpl. by rewrite app_nil_r.
  - apply Forall_cons in Hne as [Hc Hne].
    change (zip (seq k (length (c :: cl))) (c :: cl))
      with ((k, c) :: zip (seq (S k) (length cl)) cl).
    cbn [for_each kept]. rewrite select_body_nonempty by done. simpl.
    destruct (Qle_bool t (ratio q c)).
    + rewrite dict_set_fresh by (intros ?%Hacc; lia).
      rewrite IH, <-app_assoc; [done..|].
      unfold dict_keys. rewrite fmap_app. intros i [?%Hacc|Hi]%elem_of_app; [lia|].
      apply list_elem_of_singleton in Hi. simpl in Hi. lia.
    + rewrite IH; [done..|]. intros i ?%Hacc. lia.
Qed.

Lemma for_each_select_empty q t cl : ∀ k acc,
  Exists (λ c, c = []) cl →
  for_each (select_body q t) (zip (seq k (length cl)) cl) acc
  = Raise ZeroDivisionError.
Proof.
  induction cl as [|c cl IH]; intros k acc Hex; [by apply Exists_nil in Hex|].
  change (zip (seq k (length (c :: cl))) (c :: cl))
    with ((k, c) :: zip (seq (S k) (length cl)) cl).
  cbn [for_each]. destruct c as [|id c].
  - by rewrite select_body_empty.
  - rewrite select_body_nonempty by done. simpl. apply IH.
    apply Exists_cons in Hex as [?|?]; done.
Qed.

Lemma StronglySorted_NoDup {A} (R : relation A) (l : list A) :
  (∀ x, ¬ R x x) → StronglySorted R l → NoDup l.
Proof.
  intros Hirr. induction 1 as [|x l Hl IH Hx]; constructor; [|done].
  intros Hin. rewrite Forall_forall in Hx. by apply (Hirr x), Hx.
Qed.

Lemma kept_keys_NoDup q t cl k : NoDup (dict_keys (kept q t k cl)).
Proof.
  unfold dict_keys.
  apply (StronglySorted_NoDup lt); [intros x; lia|].
  apply (StronglySorted_fmap_elem _ _ _ _ (kept_sorted q t cl k)). auto.
Qed.

Lemma zip_snd_fst {A B} (d : list (A * B)) : zip d.*2 d.*1 = prod_swap <$> d.
Proof. induction d as [|[a b] d IH]; csimpl; [done|]. by rewrite IH. Qed.

Lemma select_clusters_by_precision_Ok q cl t :
  Forall (λ c, c ≠ []) cl →
  select_clusters_by_precision q cl t = Ok (decorated q t cl).*2.
Proof.
  intros Hne. unfold select_clusters_by_precision, enumerate.
  rewrite for_each_select; [|done|by intros i ?%elem_of_nil].
  simpl. unfold sorted_reverse.
  rewrite comprehension_subscript_keys by apply kept_keys_NoDup.
  simpl. unfold decorated, dict_keys. by rewrite zip_snd_fst.
Qed.

Lemma select_clusters_by_precision_empty q cl t :
  [] ∈ cl → select_clusters_by_precision q cl t = Raise ZeroDivisionError.
Proof.
  intros Hin. unfold select_clusters_by_precision, enumerate.
  rewrite for_each_select_empty; [done|]. apply Exists_exists. eauto.
Qed.

Lemma decorated_elem q t cl p i :
  (p, i) ∈ decorated q t cl ↔
  ∃ c, cl !! i = Some c ∧ p = ratio q c ∧ (t <= p)%Q.
Proof.
  unfold decorated. rewrite sort_desc_Permutation, list_elem_of_fmap.
  split.
  - intros ([i' p']&[= -> ->]&Hin). apply kept_elem in Hin as (c&_&Hl&?&?).
    rewrite Nat.sub_0_r in Hl. eauto.
  - intros (c&Hl&?&?). exists (i, p). split; [done|].
    apply kept_elem. exists c. rewrite Nat.sub_0_r. split_and!; [lia|done..].
Qed.

Lemma decorated_sorted q t cl : StronglySorted before (decorated q t cl).
Proof.
  apply sort_desc_sorted.
  apply (StronglySorted_fmap_elem _ _ _ _ (kept_sorted q t cl 0)).
  by intros [??] [??].
Qed.

Lemma ranks_before_irrefl q cl i : ¬ ranks_before q cl i i.
Proof.
  intros (ci&cj&pi&pj&Hi&Hj&Hpi&Hpj&Hor).
  rewrite Hi in Hj. injection Hj as <-. rewrite Hpi in Hpj. injection Hpj as <-.
  destruct Hor as [?%Qlt_irrefl|[_ ?]]; [done | lia].
Qed.

Lemma select_clusters_by_precision_sorted q cl t :
  Forall (λ c, c ≠ []) cl →
  ∃ sel, select_clusters_by_precision q cl t = Ok sel ∧
         NoDup sel ∧
         (∀ i, i ∈ sel ↔ qualifies q cl t i) ∧
         StronglySorted (ranks_before q cl) sel.
Proof.
  intros Hne. exists (decorated q t cl).*2.
  assert (StronglySorted (ranks_before q cl) (decorated q t cl).*2) as Hsorted.
  { apply (StronglySorted_fmap_elem _ _ _ _ (decorated_sorted q t cl)).
    intros [p i] [p' j] (c&Hc&->&_)%decorated_elem (c'&Hc'&->&_)%decorated_elem Hb.
    exists c, c', (ratio q c), (ratio q c').
    rewrite Forall_lookup in Hne.
    split_and!; [done..|by eapply precision_nonempty, Hne
                |by eapply precision_nonempty, Hne|done]. }
  split_and!; [by apply select_clusters_by_precision_Ok | | |done].
  - eapply StronglySorted_NoDup; [apply ranks_before_irrefl|done].
  - intros i. rewrite list_elem_of_fmap. split.
    + intros ([p i']&->&(c&Hc&->&Hle)%decorated_elem). exists c, (ratio q c).
      rewrite Forall_lookup in Hne.
      split_and!; [done|by eapply precision_nonempty, Hne|done].
    + intros (c&p&Hc&Hp&Hle). exists (p, i). split; [done|].
      apply decorated_elem. exists c. rewrite Forall_lookup in Hne.
      rewrite precision_nonempty in Hp by (by eapply Hne). by simplify_eq.
Qed.

(** ** The oracles: precision-ranked multi-select and best-single-select *)

(** C1. On non-empty clusters, [select_clusters_by_precision] with threshold
    [t] returns, without repetition, exactly the indices of the clusters of
    precision at least [t], ordered by precision descending and, among equal
    precisions, by index ascending. *)
Theorem select_clusters_by_precision_spec (q : query) (cl : list cluster) (t : Q) :
  Forall (λ c, c ≠ []) cl →
  ∃ sel, select_clusters_by_precision q cl t = Ok sel ∧
         NoDup sel ∧
         (∀ i, i ∈ sel ↔ qualifies q cl t i) ∧
         StronglySorted (ranks_before q cl) sel.
Proof. apply select_clusters_by_precision_sorted. Qed.

Lemma select_clusters_by_precision_spec_witness :
  Forall (λ c : cluster, c ≠ []) tie_clusters ∧
  ∃ sel, select_clusters_by_precision tie_query tie_clusters 0.5 = Ok sel ∧
         NoDup sel ∧
         (∀ i, i ∈ sel ↔ qualifies tie_query tie_clusters 0.5 i) ∧
         StronglySorted (ranks_before tie_query tie_clusters) sel.
Proof.
  split.
  - repeat constructor; discriminate.
  - apply (select_clusters_by_precision_spec tie_query tie_clusters 0.5).
    repeat constructor; discriminate.
Defined.

(** Two clusters of precision 0.8 each, threshold 0.5: both are returned, in
    their original order. *)
Example select_clusters_by_precision_tie :
  precision tie_query [1; 2; 3; 4; 5]%Z = Ok (4 / 5)%Q ∧
  precision tie_query [11; 12; 13; 14; 15]%Z = Ok (4 / 5)%Q ∧
  select_clusters_by_precision tie_query tie_clusters 0.5 = Ok [0; 1].
Proof. by vm_compute. Qed.

(** C2. On non-empty clusters, [select_best_cluster] returns at most one
    index; it returns none exactly when there is no cluster, and otherwise the
    smallest index among the clusters of maximal precision. *)
Theorem select_best_cluster_spec (q : query) (cl : list cluster) :
  Forall (λ c, c ≠ []) cl →
  ∃ sel, select_best_cluster q cl = Ok sel ∧
         length sel ≤ 1 ∧
         (sel = [] ↔ cl = []) ∧
         (cl ≠ [] →
          ∃ i ci pi, sel = [i] ∧ cl !! i = Some ci ∧ precision q ci = Ok pi ∧
            ∀ j cj pj, cl !! j = Some cj → precision q cj = Ok pj →
              (pj <= pi)%Q ∧ (pj == pi → i ≤ j)).
Proof.
  intros Hne.
  destruct (select_clusters_by_precision_sorted q cl 0 Hne)
    as (sel0&Hsel&Hnd&Hin&Hsort).
  assert (∀ j c, cl !! j = Some c → j ∈ sel0) as Hall.
  { intros j c Hc. apply Hin. exists c, (ratio q c).
    rewrite Forall_lookup in Hne.
    split_and!; [done|by eapply precision_nonempty, Hne|apply ratio_nonneg]. }
  exists (take 1 sel0). unfold select_best_cluster. rewrite Hsel.
  split_and!; [done|rewrite length_take; lia| |].
  - split.
    + intros Htake. destruct cl as [|c cl]; [done|].
      specialize (Hall 0 c eq_refl). destruct sel0; [|done].
      by apply elem_of_nil in Hall.
    + intros ->. destruct sel0 as [|i sel0]; [done|].
      destruct (proj1 (Hin i)) as (c&_&Hc&_); [left|done].
  - intros Hcl. destruct cl as [|c0 cl0] eqn:Heq; [done|]. rewrite <-Heq in *.
    destruct sel0 as [|i rest].
    { exfalso. eapply elem_of_nil, (Hall 0 c0). by rewrite Heq. }
    destruct (proj1 (Hin i)) as (ci&pi&Hci&Hpi&_); [left|].
    exists i, ci, pi. split_and!; [done..|].
    intros j cj pj Hcj Hpj. apply StronglySorted_inv in Hsort as [_ Hhd].
    specialize (Hall j cj Hcj). apply elem_of_cons in Hall as [->|Hj].
    + rewrite Hci in Hcj. injection Hcj as <-.
      rewrite Hpi in Hpj. injection Hpj as <-.
      split; [apply Qle_refl | done].
    + rewrite Forall_forall in Hhd.
      destruct (Hhd j Hj) as (ci'&cj'&pi'&pj'&Hi'&Hj'&Hpi'&Hpj'&Hor).
      rewrite Hci in Hi'. injection Hi' as <-.
      rewrite Hcj in Hj'. injection Hj' as <-.
      rewrite Hpi in Hpi'. injection Hpi' as <-.
      rewrite Hpj in Hpj'. injection Hpj' as <-.
      destruct Hor as [Hlt|[Heq' Hij]].
      * split; [by apply Qlt_le_weak|].
        intros He. rewrite He in Hlt. by apply Qlt_irrefl in Hlt.
      * split; [rewrite Heq'; apply Qle_refl | lia].
Qed.

Lemma select_best_cluster_spec_witness :
  Forall (λ c : cluster, c ≠ []) tie_clusters ∧
  ∃ sel, select_best_cluster tie_query tie_clusters = Ok sel ∧
         length sel ≤ 1 ∧
         (sel = [] ↔ tie_clusters = []) ∧
         (tie_clusters ≠ [] →
          ∃ i ci pi, sel = [i] ∧ tie_clusters !! i = Some ci ∧
            precision tie_query ci = Ok pi ∧
            ∀ j cj pj, tie_clusters !! j = Some cj →
              precision tie_query cj = Ok pj →
              (pj <= pi)%Q ∧ (pj == pi → i ≤ j)).
Proof.
  split.
  - repeat constructor; discriminate.
  - apply (select_best_cluster_spec tie_query tie_clusters).
    repeat constructor; discriminate.
Defined.

Example select_best_cluster_tie :
  select_best_cluster tie_query tie_clusters = Ok [0] ∧
  select_best_cluster tie_query [] = Ok [].
Proof. by vm_compute. Qed.

(** C4. As soon as one of the clusters handed to an oracle is empty, the
    oracle raises [ZeroDivisionError]; it neither scores that cluster as 0 nor
    skips it. *)
Theorem oracle_empty_cluster_raises (q : query) (cl : list cluster) (t : Q) :
  [] ∈ cl →
  select_clusters_by_precision q cl t = Raise ZeroDivisionError ∧
  select_best_cluster q cl = Raise ZeroDivisionError.
Proof.
  intros Hin. unfold select_best_cluster.
  by rewrite !select_clusters_by_precision_empty.
Qed.

Lemma oracle_empty_cluster_raises_witness :
  [] ∈ [[1; 2]%Z; []; [3]%Z] ∧
  select_clusters_by_precision tie_query [[1; 2]%Z; []; [3]%Z] 0.5
    = Raise ZeroDivisionError ∧
  select_best_cluster tie_query [[1; 2]%Z; []; [3]%Z] = Raise ZeroDivisionError.
Proof.
  split.
  - right. left.
  - apply (oracle_empty_cluster_raises tie_query [[1; 2]%Z; []; [3]%Z] 0.5).
    right. left.
Defined.

(** ** The precision of a cluster *)

Lemma hits_NoDup q c :
  NoDup c → hits q c = size (list_to_set c ∩ relevant q : gset Z).
Proof.
  intros Hnd. unfold hits.
  assert (list_to_set c ∩ relevant q
          = (list_to_set (filter (λ id, id ∈ relevant q) c) : gset Z)) as ->.
  { apply set_eq. intros x.
    rewrite elem_of_intersection, !elem_of_list_to_set, list_elem_of_filter.
    tauto. }
  rewrite size_list_to_set; [done|]. by apply NoDup_filter.
Qed.

(** C5, as stated, fails on a cluster that repeats an id: the code counts
    entries, not distinct ids. *)
Lemma precision_counts_repetitions :
  ¬ (∀ (q : query) (c : cluster), c ≠ [] →
       ∃ p, precision q c = Ok p ∧ p == set_precision q c).
Proof.
  intros H.
  destruct (H (Query 0 {[7%Z]} None) [7; 7]%Z) as (p&Hp&Heq); [done|].
  vm_compute in Hp. injection Hp as <-. vm_compute in Heq. discriminate Heq.
Qed.

(** C5, amended.  For a non-empty cluster [c] the oracle's precision is the
    number of entries of [c] lying in [relevant], counted with repetition,
    divided by the length of [c]; when [c] has no repeated id this is the
    cardinality of the set of ids of [c] lying in [relevant] over the length
    of [c]. *)
Theorem precision_spec (q : query) (c : cluster) :
  c ≠ [] →
  ∃ p, precision q c = Ok p ∧
       p == inject_Z (Z.of_nat (length (filter (λ id, id ∈ relevant q) c)))
            / inject_Z (Z.of_nat (length c)) ∧
       (NoDup c → p == set_precision q c).
Proof.
  intros Hc. exists (ratio q c). split_and!.
  - by apply precision_nonempty.
  - reflexivity.
  - intros Hnd. unfold ratio, set_precision. by rewrite hits_NoDup.
Qed.

Lemma precision_spec_witness :
  [1; 2; 9; 8]%Z ≠ [] ∧
  ∃ p, precision tie_query [1; 2; 9; 8]%Z = Ok p ∧
       p == inject_Z (Z.of_nat (length
              (filter (λ id, id ∈ relevant tie_query) [1; 2; 9; 8]%Z)))
            / inject_Z (Z.of_nat (length [1; 2; 9; 8]%Z)) ∧
       (NoDup [1; 2; 9; 8]%Z → p == set_precision tie_query [1; 2; 9; 8]%Z).
Proof.
  split.
  - discriminate.
  - apply (precision_spec tie_query [1; 2; 9; 8]%Z). discriminate.
Defined.

Example precision_values :
  precision tie_query [1; 2; 9; 8]%Z = Ok (2 / 4)%Q ∧
  precision (Query 0 {[7%Z]} None) [7; 7]%Z = Ok (2 / 2)%Q ∧
  set_precision (Query 0 {[7%Z]} None) [7; 7]%Z = (1 / 2)%Q.
Proof. by vm_compute. Qed.

(** ** The preview-truncated selector *)

Lemma slice_to_nonneg {A} (n : Z) (c : list A) :
  (0 ≤ n)%Z → slice_to n c = take (Z.to_nat n) c.
Proof. intros Hn. unfold slice_to. by rewrite (proj2 (Z.leb_le 0 n) Hn). Qed.

Lemma slice_to_empty {A} (n : Z) (c : list A) :
  n = 0%Z ∨ (n < 0 ∧ Z.of_nat (length c) ≤ - n)%Z → slice_to n c = [].
Proof.
  unfold slice_to. intros [->|[Hn Hlen]]; [done|].
  rewrite (proj2 (Z.leb_gt 0 n) Hn).
  replace (length c - Z.to_nat (- n)) with 0 by lia. done.
Qed.

Lemma slice_to_nonempty {A} (n : Z) (c : list A) :
  (1 ≤ n)%Z → c ≠ [] → slice_to n c ≠ [].
Proof.
  intros Hn Hc. rewrite slice_to_nonneg by lia.
  destruct c as [|x c]; [done|].
  destruct (Z.to_nat n) as [|k] eqn:Hk; [lia | done].
Qed.

Lemma select_clusters_func_empty multiple q cl :
  [] ∈ cl → select_clusters_func multiple q cl = Raise ZeroDivisionError.
Proof.
  intros Hin. destruct multiple; simpl.
  - by apply select_clusters_by_precision_empty.
  - unfold select_best_cluster. by rewrite select_clusters_by_precision_empty.
Qed.

Lemma select_clusters_func_Ok multiple q cl :
  Forall (λ c, c ≠ []) cl → is_Ok (select_clusters_func multiple q cl).
Proof.
  intros Hne. destruct multiple; simpl.
  - rewrite select_clusters_by_precision_Ok by done. by eexists.
  - unfold select_best_cluster.
    rewrite select_clusters_by_precision_Ok by done. by eexists.
Qed.

(** C10. With [num_preview = 0], or with a negative [num_preview] that
    truncates some cluster of the call to nothing, the preview-truncated
    selector raises [ZeroDivisionError] on every non-empty cluster list,
    whatever the original clusters; with [num_preview >= 1] truncation keeps
    non-empty clusters non-empty and the selector returns. *)
Theorem select_clusters_preview_emptiness
    (multiple : bool) (num_preview : Z) (q : query) (cl : list cluster) :
  (cl ≠ [] →
   num_preview = 0%Z ∨
     (num_preview < 0)%Z ∧
     Exists (λ c : cluster, (Z.of_nat (length c) ≤ - num_preview)%Z) cl →
   select_clusters multiple num_preview q cl = Raise ZeroDivisionError) ∧
  ((1 ≤ num_preview)%Z → Forall (λ c, c ≠ []) cl →
   Forall (λ c, c ≠ []) (slice_to num_preview <$> cl) ∧
   is_Ok (select_clusters multiple num_preview q cl)).
Proof.
  split.
  - intros Hcl Hn. unfold select_clusters.
    apply select_clusters_func_empty, list_elem_of_fmap.
    destruct Hn as [->|[Hn Hex]].
    + destruct cl as [|c cl]; [done|]. exists c. split; [|left].
      symmetry. apply slice_to_empty. by left.
    + apply Exists_exists in Hex as (c&Hc&Hlen). exists c. split; [|done].
      symmetry. apply slice_to_empty. by right.
  - intros Hn Hne.
    assert (Forall (λ c, c ≠ []) (slice_to num_preview <$> cl)) as Hne'.
    { apply Forall_fmap. eapply Forall_impl; [done|].
      intros c Hc. by apply slice_to_nonempty. }
    split; [done|]. by apply select_clusters_func_Ok.
Qed.

Lemma select_clusters_preview_emptiness_witness :
  (select_clusters false 0 tie_query tie_clusters = Raise ZeroDivisionError) ∧
  (select_clusters true (-5) tie_query tie_clusters = Raise ZeroDivisionError) ∧
  (Forall (λ c : cluster, c ≠ []) (slice_to 2 <$> tie_clusters) ∧
   is_Ok (select_clusters true 2 tie_query tie_clusters)).
Proof.
  split; [|split].
  - apply (select_clusters_preview_emptiness false 0 tie_query tie_clusters);
      [discriminate | by left].
  - apply (select_clusters_preview_emptiness true (-5) tie_query tie_clusters);
      [discriminate|].
    right. split; [lia|]. left. simpl. lia.
  - apply (select_clusters_preview_emptiness true 2 tie_query tie_clusters);
      [lia|]. repeat constructor; discriminate.
Defined.

Example select_clusters_previews :
  select_clusters true 2 tie_query tie_clusters = Ok [0; 1] ∧
  select_clusters false 10 tie_query tie_clusters = Ok [0] ∧
  select_clusters false (-4) tie_query [[1; 7; 8; 9; 10]]%Z = Ok [0] ∧
  slice_to (-4) [1; 7; 8; 9; 10]%Z = [1]%Z ∧
  slice_to 0 [1; 7; 8; 9; 10]%Z = [].
Proof. by vm_compute. Qed.

(** ** Reasoning about driver computations *)

Lemma comprehension_Ok {A B} (f : A → result B) (l : list A) (ys : list B) :
  comprehension f l = Ok ys ↔ Forall2 (λ x y, f x = Ok y) l ys.
Proof.
  revert ys. induction l as [|x l IH]; intros ys; simpl.
  - split; [intros [= <-]; constructor | by intros ->%Forall2_nil_inv_l].
  - rewrite bind_Ok. split.
    + intros (y&Hy&(ys'&Hys&[= <-])%bind_Ok). constructor; [done|by apply IH].
    + intros (y&ys'&Hy&Hys&->)%Forall2_cons_inv_l. exists y. split; [done|].
      apply bind_Ok. exists ys'. split; [by apply IH | done].
Qed.

Lemma dict_of_items_NoDup {K V} `{EqDecision K} (items : list (K * V)) :
  NoDup items.*1 → dict_of_items items = items.
Proof.
  unfold dict_of_items.
  assert (∀ acc : dict K V, NoDup (acc ++ items).*1 →
    foldl (λ d kv, dict_set kv.1 kv.2 d) acc items = acc ++ items) as Hgen.
  { induction items as [|[k v] items IH]; intros acc Hnd; simpl.
    - by rewrite app_nil_r.
    - rewrite dict_set_fresh.
      + rewrite IH; rewrite <-app_assoc; done.
      + rewrite fmap_app in Hnd. apply NoDup_app in Hnd as (_&Hdisj&_).
        intros Hk. apply (Hdisj k Hk). left. }
  intros Hnd. by apply (Hgen []).
Qed.

Section harness_facts.
Context {QId : Type} `{EqDecision QId} {features params dist W : Type}.
Context (baseline_retrieval clue hard_cluster_selection
           automatic_image_disambiguation
         : @method_fn QId features params dist W).
Context (precision_at_k : list nat → gset Z → list Z → gset Z → list Q).
Context (avg_query_metrics : dict QId scored → bool → bundle).
Context (no_params : params).

Local Abbreviation M := (@M QId params W).
Local Abbreviation event := (@event QId params).
Local Abbreviation world := (@world QId params W).
Local Abbreviation retrieval := (@retrieval QId dist).
Local Abbreviation triple := (@triple QId params W _).
Local Abbreviation METHODS :=
  (METHODS baseline_retrieval clue hard_cluster_selection
     automatic_image_disambiguation).
Local Abbreviation method_step :=
  (method_step baseline_retrieval clue hard_cluster_selection
     automatic_image_disambiguation precision_at_k avg_query_metrics
     no_params).
Local Abbreviation run_benchmarks :=
  (run_benchmarks baseline_retrieval clue hard_cluster_selection
     automatic_image_disambiguation precision_at_k avg_query_metrics
     no_params).

Lemma triple_ret {A} (a : A) P (Φ : A → Prop) : Φ a → triple (mret a) P Φ.
Proof.
  intros Ha w. exists []. simpl. rewrite app_nil_r.
  split_and!; [done..|]. by intros ? [= <-].
Qed.

Lemma triple_lift {A} (r : result A) P : triple (lift r) P (λ a, r = Ok a).
Proof. intros w. exists []. simpl. rewrite app_nil_r. done. Qed.

Lemma triple_emit (e : event) (P : event → Prop) :
  P e → triple (emit e) P (λ _, True).
Proof. intros He w. exists [e]. simpl. split_and!; [done|by constructor|done]. Qed.

Lemma triple_call (f : W → result retrieval * W) P :
  triple (call f) P (λ r, ∃ x x', f x = (Ok r, x')).
Proof.
  intros w. exists []. unfold call. destruct (f (ext w)) as [r x'] eqn:Hf.
  simpl. rewrite app_nil_r. split_and!; [done..|].
  intros a ->. eauto.
Qed.

Lemma triple_bind {A B} (m : M A) (f : A → M B) P Φ Ψ :
  triple m P Φ → (∀ a, Φ a → triple (f a) P Ψ) → triple (m ≫= f) P Ψ.
Proof.
  intros Hm Hf w. unfold mbind, M_bind.
  destruct (Hm w) as (evs1&Hlog1&HP1&HΦ).
  destruct (m w) as [[a|e] w1]; simpl in *.
  - destruct (Hf a (HΦ a eq_refl) w1) as (evs2&Hlog2&HP2&HΨ).
    exists (evs1 ++ evs2). rewrite Hlog2, Hlog1, app_assoc.
    split_and!; [done|by apply Forall_app|done].
  - exists evs1. split_and!; [done..|]. by intros ? [=].
Qed.

Lemma triple_weaken {A} (m : M A) P (Φ Ψ : A → Prop) :
  triple m P Φ → (∀ a, Φ a → Ψ a) → triple m P Ψ.
Proof.
  intros Hm Himp w. destruct (Hm w) as (evs&?&?&?).
  exists evs. split_and!; [done..|]. auto.
Qed.

Lemma triple_for_eachM {A S} (body : S → A → M S) (l : list A) P
    (I : S → Prop) (s : S) :
  I s → (∀ s x, I s → x ∈ l → triple (body s x) P I) →
  triple (for_eachM body l s) P I.
Proof.
  revert s. induction l as [|x l IH]; intros s Hs Hbody; simpl.
  - by apply triple_ret.
  - eapply triple_bind; [apply Hbody; [done|left]|].
    intros s' Hs'. apply IH; [done|].
    intros s'' y ? ?. apply Hbody; [done|by right].
Qed.

Lemma for_eachM_app {A S} (body : S → A → M S) (l1 l2 : list A) (s : S) w :
  for_eachM body (l1 ++ l2) s w
  = (s' ← for_eachM body l1 s; for_eachM body l2 s') w.
Proof.
  revert s w. induction l1 as [|x l1 IH]; intros s w; simpl; [done|].
  unfold mbind, M_bind in *. destruct (body s x w) as [[s'|e] w']; [|done].
  apply IH.
Qed.

(** The keyword parameters of a method are always found. *)
Lemma params_lookup_Ok (algo_params : dict string params) (method : string) :
  ∃ p, (if dict_mem (lower method) algo_params
        then subscript algo_params (lower method)
        else Ok no_params) = Ok p.
Proof.
  unfold dict_mem, subscript. case_bool_decide as Hmem; [|by eexists].
  destruct Hmem as [p ->]. by eexists.
Qed.

(** Line 110 with a name outside the registry: [METHODS[method]] raises,
    and nothing else happens. *)
Lemma method_step_unknown a algo_params feats queries st method w :
  dict_get method METHODS = None →
  method_step a algo_params feats queries st method w = (Raise KeyError, w).
Proof.
  intros Hm. unfold method_step.
  destruct (params_lookup_Ok algo_params method) as [p ->].
  unfold subscript at 1. rewrite Hm. done.
Qed.
(** Every step only logs one invocation, one scoring batch and one
    aggregation. *)
Lemma method_step_triple a algo_params feats queries st method
    (P : event → Prop) :
  (∀ p, P (EvInvoke method (select_clusters (multiple a) (num_preview a)) p)) →
  (∀ (retrieved : retrieval) sargs,
     score_args queries retrieved = Ok sargs → P (EvScore sargs)) →
  (∀ arg, P (EvAggregate arg false)) →
  triple (method_step a algo_params feats queries st method) P (λ _, True).
Proof.
  intros Hinvoke Hscore Haggregate. unfold method_step.
  eapply triple_bind; [apply triple_lift|]. intros p _.
  eapply triple_bind; [apply triple_lift|]. intros f _.
  eapply triple_bind; [apply triple_emit, Hinvoke|]. intros _ _.
  eapply triple_bind; [apply triple_call|]. intros retrieved _.
  eapply triple_bind; [apply triple_lift|]. intros sargs Hsargs.
  eapply triple_bind; [apply triple_emit; eapply Hscore; exact Hsargs|].
  intros _ _.
  eapply triple_bind; [apply triple_lift|]. intros curve _.
  eapply triple_bind; [apply triple_lift|]. intros arg _.
  eapply triple_bind; [apply triple_emit, Haggregate|]. intros _ _.
  eapply triple_bind; [apply triple_lift|]. intros b _.
  by apply triple_ret.
Qed.

(** A step that returns has gone through every line of the loop body. *)
Lemma method_step_Ok a algo_params feats queries st method w st' w' :
  method_step a algo_params feats queries st method w = (Ok st', w') →
  ∃ p f retrieved x sargs curve arg b,
    dict_get method METHODS = Some f ∧
    f feats queries (select_clusters (multiple a) (num_preview a)) p (ext w)
      = (Ok retrieved, x) ∧
    score_args queries retrieved = Ok sargs ∧
    np_mean_axis0
      ((λ t : score_arg, precision_at_k t.1.1.1 t.1.1.2 t.1.2 t.2) <$> sargs)
      = Ok curve ∧
    aggregate_arg queries retrieved = Ok arg ∧
    inject_P curve (avg_query_metrics arg false) = Ok b ∧
    st' = (append_to method b st.1, append_to method curve st.2) ∧
    w' = World x (log w ++
           [EvInvoke method (select_clusters (multiple a) (num_preview a)) p;
            EvScore sargs; EvAggregate arg false]).
Proof.
  unfold method_step.
  destruct (params_lookup_Ok algo_params method) as [p ->].
  unfold subscript at 1. destruct (dict_get method METHODS) as [f|]; [|done].
  unfold mbind, M_bind, lift, emit, call, mret, M_ret. cbn [ext log].
  destruct (f feats queries _ p (ext w)) as [[retrieved|e] x] eqn:Hf; [|done].
  destruct (score_args queries retrieved) as [sargs|e] eqn:Hs; [|done].
  cbn [ext log].
  destruct (np_mean_axis0 _) as [curve|e] eqn:Hc; [|done].
  destruct (aggregate_arg queries retrieved) as [arg|e] eqn:Ha; [|done].
  cbn [ext log].
  destruct (inject_P curve _) as [b|e] eqn:Hb; [|done].
  intros [= <- <-]. exists p, f, retrieved, x, sargs, curve, arg, b.
  rewrite <-!app_assoc. done.
Qed.

(** *** The unknown method name *)

(** C3, amended.  An unknown method name is not checked before the round
    loop.  When at least one round is requested the run does fail, in the
    first round: it behaves as the sweep over the methods listed before the
    unknown name, followed, if that sweep returns, by the [KeyError] of the
    registry lookup; no later round is started. *)
Theorem unknown_method_raises_in_first_round
    a algo_params feats queries (known : list string) (bad : string)
    (rest : list string) (w : world) :
  methods a = known ++ bad :: rest →
  dict_get bad METHODS = None →
  (1 ≤ rounds a)%Z →
  let sweep :=
    for_eachM (method_step a algo_params feats queries) known ([], [])
      (World (ext w) (log w ++ [EvRound 0])) in
  let out := run_benchmarks a algo_params feats queries w in
  out = (sweep.1 ≫= (λ _, Raise KeyError), sweep.2) ∧
  (∃ e, out.1 = Raise e) ∧
  ∃ evs, log out.2 = log w ++ EvRound 0 :: evs ∧
         Forall (λ ev, ∀ r, ev ≠ EvRound r) evs.
Proof.
  intros Hmethods Hbad Hrounds sweep out.
  assert (out = (sweep.1 ≫= (λ _, Raise KeyError), sweep.2)) as Hout.
  { unfold out, sweep, run_benchmarks, range.
    destruct (Z.to_nat (rounds a)) as [|n] eqn:Hn; [lia|].
    cbn [seq for_eachM]. unfold mbind at 1, M_bind at 1.
    unfold mbind at 1, M_bind at 1. unfold emit at 1. cbn [ext log].
    rewrite Hmethods, for_eachM_app. unfold mbind at 1, M_bind at 1.
    destruct (for_eachM _ known _ _) as [[s|e] w1]; [|done].
    cbn [for_eachM]. unfold mbind at 1, M_bind at 1.
    by rewrite method_step_unknown. }
  split; [done|]. rewrite Hout. cbn [fst snd]. split.
  - destruct sweep.1; by eexists.
  - assert (triple
      (for_eachM (method_step a algo_params feats queries) known ([], []))
      (λ ev, ∀ r, ev ≠ EvRound r) (λ _, True)) as Hsweep.
    { apply triple_for_eachM; [done|]. intros s x _ _.
      apply method_step_triple; intros; discriminate. }
    destruct (Hsweep (World (ext w) (log w ++ [EvRound 0])))
      as (evs&Hlog&Hevs&_).
    exists evs. fold sweep in Hlog. rewrite Hlog. cbn [log].
    by rewrite <-app_assoc.
Qed.

(** *** The selector handed to the methods *)

(** *** The exclude set and the injected precisions *)

Lemma score_args_Ok queries (retrieved : retrieval) sargs :
  score_args queries retrieved = Ok sargs →
  Forall2 (λ item t, ∃ q,
      dict_get item.1 queries = Some q ∧
      t = (seq 1 100, relevant q, item.2.1,
           {[img_id q]} ∪ default ∅ (ignore q)))
    retrieved sargs.
Proof.
  intros Hc%comprehension_Ok. eapply Forall2_impl; [done|].
  intros [qid [ret d]] t (q&Hq%subscript_Ok&[= <-])%bind_Ok.
  exists q. split; [done|]. by destruct (ignore q).
Qed.

Lemma aggregate_arg_Ok queries (retrieved : retrieval) arg :
  NoDup (dict_keys queries) →
  aggregate_arg queries retrieved = Ok arg →
  ∀ qid q, dict_get qid queries = Some q →
    ∃ r, dict_get qid retrieved = Some r ∧
         dict_get qid arg
         = Some (Scored (relevant q) r.1 ({[img_id q]} ∪ default ∅ (ignore q))).
Proof.
  intros Hnd (items&Hc%comprehension_Ok&->)%fmap_Ok qid q Hq.
  assert (items.*1 = queries.*1) as Hkeys.
  { clear -Hc. induction Hc as [|[k v] y l l' Hy _ IH]; [done|].
    apply bind_Ok in Hy as (r&_&[= <-]). csimpl. by rewrite IH. }
  rewrite dict_of_items_NoDup by (by rewrite Hkeys).
  apply dict_get_Some_elem, list_elem_of_lookup_1 in Hq as [i Hi].
  destruct (Forall2_lookup_l _ _ _ _ _ Hc Hi) as (y&Hy&Hf).
  apply bind_Ok in Hf as (r&Hr%subscript_Ok&[= <-]). exists r. split; [done|].
  apply dict_get_elem; [unfold dict_keys; by rewrite Hkeys|].
  apply list_elem_of_lookup_2 in Hy. by destruct (ignore q).
Qed.

(** C7.  In a step that returns, the argument tuple of [precision_at_k]
    built for a retrieved query carries as exclude set the query's own
    [img_id] together with its [ignore] set (nothing when absent), computed
    from that query alone, and [avg_query_metrics] receives the very same set
    in the entry of that query. *)
Theorem exclude_set_consistent
    a algo_params feats queries st method w st' w' :
  NoDup (dict_keys queries) →
  method_step a algo_params feats queries st method w = (Ok st', w') →
  ∃ p f x (retrieved : retrieval) sargs arg,
    dict_get method METHODS = Some f ∧
    f feats queries (select_clusters (multiple a) (num_preview a)) p (ext w)
      = (Ok retrieved, x) ∧
    log w' = log w ++
      [EvInvoke method (select_clusters (multiple a) (num_preview a)) p;
       EvScore sargs; EvAggregate arg false] ∧
    length sargs = length retrieved ∧
    (∀ n qid ret d, retrieved !! n = Some (qid, (ret, d)) →
       ∃ q entry,
         dict_get qid queries = Some q ∧
         sargs !! n = Some (seq 1 100, relevant q, ret,
                            {[img_id q]} ∪ default ∅ (ignore q)) ∧
         dict_get qid arg = Some entry ∧
         s_ignore entry = {[img_id q]} ∪ default ∅ (ignore q)) ∧
    (∀ qid q, dict_get qid queries = Some q →
       ∃ entry, dict_get qid arg = Some entry ∧
                s_ignore entry = {[img_id q]} ∪ default ∅ (ignore q)).
Proof.
  intros Hnd (p&f&retrieved&x&sargs&curve&arg&b&Hf&Hcall&Hs&_&Ha&_&_&->)
    %method_step_Ok.
  exists p, f, x, retrieved, sargs, arg.
  apply score_args_Ok in Hs.
  split_and!; [done..|by erewrite <-Forall2_length| |].
  - intros n qid ret d Hn.
    destruct (Forall2_lookup_l _ _ _ _ _ Hs Hn) as (t&Ht&q&Hq&->).
    destruct (aggregate_arg_Ok _ _ _ Hnd Ha qid q Hq) as (r&_&Harg).
    exists q, (Scored (relevant q) r.1 ({[img_id q]} ∪ default ∅ (ignore q))).
    done.
  - intros qid q Hq.
    destruct (aggregate_arg_Ok _ _ _ Hnd Ha qid q Hq) as (r&_&Harg).
    by eexists.
Qed.

Lemma inject_P_Ok curve b0 b :
  inject_P curve b0 = Ok b →
  ∃ v1 v10 v50 v100,
    curve !! 0 = Some v1 ∧ curve !! 9 = Some v10 ∧
    curve !! 49 = Some v50 ∧ curve !! 99 = Some v100 ∧
    b = dict_set "P@100" v100 (dict_set "P@50" v50
          (dict_set "P@10" v10 (dict_set "P@1" v1 b0))).
Proof.
  unfold inject_P. cbn [for_each]. unfold index.
  change (1 - 1) with 0. change (10 - 1) with 9.
  change (50 - 1) with 49. change (100 - 1) with 99.
  change (P_at 1) with "P@1". change (P_at 10) with "P@10".
  change (P_at 50) with "P@50". change (P_at 100) with "P@100".
  destruct (curve !! 0) as [v1|]; [|done].
  destruct (curve !! 9) as [v10|]; [|done].
  destruct (curve !! 49) as [v50|]; [|done].
  destruct (curve !! 99) as [v100|]; [|done].
  intros [= <-]. by exists v1, v10, v50, v100.
Qed.

Lemma dict_get_append_to {V} method (x : V) (d : dict string (list V)) :
  dict_get method (append_to method x d)
  = Some (default [] (dict_get method d) ++ [x]).
Proof. apply dict_get_set_eq. Qed.

(** C8.  In a step that returns, every argument tuple of [precision_at_k]
    carries [ks = range(1, 101)]; the curve appended for the method is the
    column-wise mean of the returned precision vectors; and the bundle
    appended for the method holds, under [P@1], [P@10], [P@50] and [P@100],
    the entries of that curve at the 1-indexed positions 1, 10, 50 and 100,
    every other entry being the one computed by [avg_query_metrics]. *)
Theorem P_at_k_read_off_curve
    a algo_params feats queries st method w st' w' :
  method_step a algo_params feats queries st method w = (Ok st', w') →
  ∃ p sargs arg curve b,
    log w' = log w ++
      [EvInvoke method (select_clusters (multiple a) (num_preview a)) p;
       EvScore sargs; EvAggregate arg false] ∧
    Forall (λ t : score_arg, t.1.1.1 = seq 1 100) sargs ∧
    np_mean_axis0
      ((λ t : score_arg, precision_at_k t.1.1.1 t.1.1.2 t.1.2 t.2) <$> sargs)
      = Ok curve ∧
    dict_get method st'.2 = Some (default [] (dict_get method st.2) ++ [curve]) ∧
    dict_get method st'.1 = Some (default [] (dict_get method st.1) ++ [b]) ∧
    (∀ pk, pk ∈ [1; 10; 50; 100] →
       ∃ v, curve !! (pk - 1) = Some v ∧ dict_get (P_at pk) b = Some v) ∧
    (∀ k, k ∉ P_at <$> [1; 10; 50; 100] →
       dict_get k b = dict_get k (avg_query_metrics arg false)).
Proof.
  intros (p&f&retrieved&x&sargs&curve&arg&b&Hf&Hcall&Hs&Hc&Ha&Hb&->&->)
    %method_step_Ok.
  exists p, sargs, arg, curve, b. cbn [fst snd log].
  rewrite !dict_get_append_to.
  apply inject_P_Ok in Hb as (v1&v10&v50&v100&H1&H10&H50&H100&->).
  split_and!; [done| |done..| |].
  - apply score_args_Ok in Hs. eapply Forall2_Forall_r; [done|].
    apply Forall_forall. by intros item _ t (q&_&->).
  - intros pk Hpk. repeat (apply elem_of_cons in Hpk as [->|Hpk]).
    + exists v1. split; [done|]. change (P_at 1) with "P@1".
      by rewrite 3!dict_get_set_ne, dict_get_set_eq.
    + exists v10. split; [done|]. change (P_at 10) with "P@10".
      by rewrite 2!dict_get_set_ne, dict_get_set_eq.
    + exists v50. split; [done|]. change (P_at 50) with "P@50".
      by rewrite dict_get_set_ne, dict_get_set_eq.
    + exists v100. split; [done|]. change (P_at 100) with "P@100".
      by rewrite dict_get_set_eq.
    + by apply elem_of_nil in Hpk.
  - intros k Hk. change (P_at <$> [1; 10; 50; 100])
      with ["P@1"; "P@10"; "P@50"; "P@100"] in Hk.
    rewrite !not_elem_of_cons in Hk. destruct Hk as (?&?&?&?&_).
    by rewrite !dict_get_set_ne.
Qed.
(** *** How many bundles a run collects *)

Lemma bindM_Ok {A B} (m : M A) (f : A → M B) w b w' :
  (m ≫= f) w = (Ok b, w') ↔ ∃ a w1, m w = (Ok a, w1) ∧ f a w1 = (Ok b, w').
Proof.
  unfold mbind, M_bind. destruct (m w) as [[a|e] w1]; split.
  - intros Hf. by exists a, w1.
  - by intros (?&?&[= <- <-]&?).
  - done.
  - by intros (?&?&[=]&_).
Qed.

Lemma method_step_count a algo_params feats queries st x w st' w' m :
  method_step a algo_params feats queries st x w = (Ok st', w') →
  length (default [] (dict_get m st'.1))
  = length (default [] (dict_get m st.1)) + (if decide (x = m) then 1 else 0).
Proof.
  intros (p&f&retrieved&y&sargs&curve&arg&b&_&_&_&_&_&_&->&_)%method_step_Ok.
  cbn [fst]. case_decide as Hm.
  - subst. rewrite dict_get_append_to. simpl. by rewrite length_app.
  - unfold append_to. rewrite dict_get_set_ne by done. lia.
Qed.

Lemma sweep_count a algo_params feats queries ms : ∀ st w st' w' m,
  for_eachM (method_step a algo_params feats queries) ms st w = (Ok st', w') →
  length (default [] (dict_get m st'.1))
  = length (default [] (dict_get m st.1)) + length (filter (λ x, x = m) ms).
Proof.
  induction ms as [|x ms IH]; intros st w st' w' m; cbn [for_eachM].
  - intros [= <- _]. simpl. lia.
  - intros (st1&w1&Hstep&Hrest)%bindM_Ok.
    rewrite (IH _ _ _ _ _ Hrest), (method_step_count _ _ _ _ _ _ _ _ _ _ Hstep).
    rewrite filter_cons. case_decide; simpl; lia.
Qed.

(** A run that returns has collected, for every method name, one bundle per
    round and per occurrence of the name in the method list. *)
Lemma run_benchmarks_count a algo_params feats queries w st w' m :
  run_benchmarks a algo_params feats queries w = (Ok st, w') →
  length (default [] (dict_get m st.1))
  = Z.to_nat (rounds a) * length (filter (λ x, x = m) (methods a)).
Proof.
  unfold run_benchmarks, range.
  assert (∀ n k st0 w0,
    for_eachM (λ st r, _ ← emit (EvRound r);
        for_eachM (method_step a algo_params feats queries) (methods a) st)
      (seq k n) st0 w0 = (Ok st, w') →
    length (default [] (dict_get m st.1))
    = length (default [] (dict_get m st0.1))
      + n * length (filter (λ x, x = m) (methods a))) as Hgen.
  { induction n as [|n IH]; intros k st0 w0; cbn [seq for_eachM].
    - intros [= <- _]. lia.
    - intros (st1&w1&(?&w2&_&Hsweep)%bindM_Ok&Hrest)%bindM_Ok.
      rewrite (IH _ _ _ Hrest), (sweep_count _ _ _ _ _ _ _ _ _ _ Hsweep). lia. }
  intros Hrun. by rewrite (Hgen _ _ _ _ Hrun).
Qed.

(** The tables printed by [main] are the reductions of the bundles of the
    run. *)
Lemma main_reports a algo_params feats queries w means sds w' :
  main baseline_retrieval clue hard_cluster_selection
    automatic_image_disambiguation precision_at_k avg_query_metrics no_params
    a algo_params feats queries w = (Ok (Some (means, sds)), w') →
  ∃ st, run_benchmarks a algo_params feats queries w = (Ok st, w') ∧
        reduce np_mean st.1 = Ok means ∧
        if show_sd a then ∃ t, reduce np_std st.1 = Ok t ∧ sds = Some t
        else sds = None.
Proof.
  unfold main. case_decide; [done|].
  intros (st&w1&Hrun&(means'&w2&Hmeans&Hrest)%bindM_Ok)%bindM_Ok.
  unfold lift in Hmeans. injection Hmeans as Hmeans <-.
  apply bindM_Ok in Hrest as (sds'&w3&Hsds&[= <- <- <-]).
  exists st. split_and!; [|done|].
  - destruct (show_sd a); unfold lift in Hsds; by injection Hsds as _ <-.
  - destruct (show_sd a).
    + unfold lift in Hsds. injection Hsds as Hsds _.
      apply fmap_Ok in Hsds as (t&?&->). by exists t.
    + by injection Hsds as <- _.
Qed.
End harness_facts.

(** ** The statistical reducer *)

(** A comprehension that produces one item per key, with distinct keys,
    builds the dictionary of exactly those items. *)
Lemma comprehension_items {A K V} `{EqDecision K}
    (g : A → result (K * V)) (key : A → K) (l : list A) :
  (∀ x, x ∈ l → ∃ v, g x = Ok (key x, v)) →
  NoDup (key <$> l) →
  ∃ items, comprehension g l = Ok items ∧
           dict_of_items items = items ∧
           ∀ x v, x ∈ l → g x = Ok (key x, v) → dict_get (key x) items = Some v.
Proof.
  intros Hg Hnd.
  assert (∃ items, Forall2 (λ x y, g x = Ok y) l items ∧ items.*1 = key <$> l)
    as (items&Hitems&Hkeys).
  { clear Hnd. induction l as [|x l IH]; [by exists []|].
    destruct IH as (items&?&Hk); [intros y ?; apply Hg; by right|].
    destruct (Hg x) as [v Hv]; [left|].
    exists ((key x, v) :: items). split; [by constructor|].
    csimpl. by rewrite Hk. }
  exists items. split_and!.
  - by apply comprehension_Ok.
  - apply dict_of_items_NoDup. by rewrite Hkeys.
  - intros x v [i Hi]%list_elem_of_lookup_1 Hx.
    destruct (Forall2_lookup_l _ _ _ _ _ Hitems Hi) as (y&Hy&Hxy).
    rewrite Hx in Hxy. injection Hxy as <-.
    apply dict_get_elem; [unfold dict_keys; by rewrite Hkeys|].
    by apply list_elem_of_lookup_2 in Hy.
Qed.

Lemma column_Ok (metric : string) (lists : list bundle) :
  Forall (λ m : bundle, is_Some (dict_get metric m)) lists →
  ∃ vals, comprehension (λ m : bundle, subscript m metric) lists = Ok vals ∧
          Forall2 (λ m v, dict_get metric m = Some v) lists vals.
Proof.
  induction 1 as [|m lists [v Hv] _ (vals&Hvals&HF)]; [by exists []|].
  exists (v :: vals). split; [|by constructor].
  cbn [comprehension]. rewrite (proj2 (subscript_Ok m metric v) Hv).
  simpl. by rewrite Hvals.
Qed.

Lemma reduce_Ok {X} (f : list Q → X) (metrics : dict string (list bundle)) :
  uniform metrics →
  ∃ table, reduce f metrics = Ok table ∧
    ∀ method lists (first : bundle) metric,
      dict_get method metrics = Some lists →
      lists !! 0 = Some first →
      metric ∈ dict_keys first →
      ∃ vals row,
        comprehension (λ m : bundle, subscript m metric) lists = Ok vals ∧
        dict_get method table = Some row ∧
        dict_get metric row = Some (f vals).
Proof.
  intros [Hnd Hwf]. unfold reduce.
  set (row_of := λ ml : string * list bundle, _).
  assert (∀ ml, ml ∈ metrics → ∃ row, row_of ml = Ok (ml.1, row) ∧
    ∀ (first : bundle) metric, ml.2 !! 0 = Some first →
      metric ∈ dict_keys first →
      ∃ vals, comprehension (λ m : bundle, subscript m metric) ml.2 = Ok vals ∧
              dict_get metric row = Some (f vals)) as Hrow.
  { intros [method lists] Hin. rewrite Forall_forall in Hwf.
    destruct (Hwf _ Hin) as (first&Hfirst&Hndf&Hall). simpl in *.
    destruct (comprehension_items
      (λ metric, vals ← comprehension (λ m : bundle, subscript m metric) lists;
                 Ok (metric, f vals)) (@Datatypes.id string) (dict_keys first))
      as (items&Hitems&Hdict&Hget).
    { intros metric Hm. destruct (column_Ok metric lists) as (vals&->&_).
      - eapply Forall_impl; [done|]. intros m Hk. by apply Hk.
      - by eexists. }
    { by rewrite list_fmap_id. }
    exists items. split.
    - unfold row_of, index. cbn [fst snd]. rewrite Hfirst, ret_bind.
      rewrite Hitems, ret_bind. by rewrite Hdict.
    - intros first' metric Hfirst' Hm. cbn [snd] in Hfirst'.
      assert (first' = first) as -> by congruence.
      destruct (column_Ok metric lists) as (vals&Hvals&_).
      { eapply Forall_impl; [done|]. intros m Hk. by apply Hk. }
      exists vals. split; [done|]. apply (Hget metric); [done|].
      simpl. by rewrite Hvals. }
  destruct (comprehension_items row_of fst metrics)
    as (items&Hitems&Hdict&Hget).
  { intros ml Hin. destruct (Hrow ml Hin) as (row&->&_). by eexists. }
  { done. }
  exists items. rewrite Hitems. simpl. rewrite Hdict. split; [done|].
  intros method lists first metric Hlists%dict_get_Some_elem Hfirst Hmetric.
  destruct (Hrow _ Hlists) as (row&Hr&Hvals).
  destruct (Hvals first metric Hfirst Hmetric) as (vals&Hv&Hgetv).
  exists vals, row. split_and!; [done| |done].
  by apply (Hget (method, lists)).
Qed.

Lemma Qabs_square (x : Q) : (Qabs x ^ 2 == x ^ 2)%Q.
Proof.
  simpl. rewrite <-Qabs_Qmult. apply Qabs_pos, (Qsqr_nonneg x).
Qed.

Lemma foldr_Qplus_proper (xs ys : list Q) :
  Forall2 Qeq xs ys → (foldr Qplus 0 xs == foldr Qplus 0 ys)%Q.
Proof. induction 1 as [|x y xs ys Hxy _ IH]; simpl; [done|]. by rewrite Hxy, IH. Qed.

(** [np.std] divides the sum of squared deviations by the number of values
    (not by one less). *)
Lemma np_std_population (xs : list Q) :
  np_std xs
  = sqrt (Q2R (foldr Qplus 0 ((λ x, (x - np_mean xs) ^ 2) <$> xs)
               / inject_Z (Z.of_nat (length xs)))%Q).
Proof.
  unfold np_std, np_var. f_equal. apply Qeq_eqR.
  unfold np_mean at 1. rewrite length_fmap.
  apply Qdiv_comp; [|done]. apply foldr_Qplus_proper.
  apply Forall2_fmap, Forall2_same_length_lookup. split; [done|].
  intros i x y Hx Hy. rewrite Hx in Hy. injection Hy as <-. apply Qabs_square.
Qed.

Example np_mean_three_rounds : (np_mean [0.2; 0.4; 0.6] == 0.4)%Q.
Proof. reflexivity. Qed.

Example np_std_three_rounds :
  np_std [0.2; 0.4; 0.6]%Q
  = sqrt (((0.2 - 0.4) ^ 2 + (0.4 - 0.4) ^ 2 + (0.6 - 0.4) ^ 2) / 3)%R.
Proof.
  unfold np_std. f_equal.
  let v := eval vm_compute in (np_var [0.2; 0.4; 0.6]%Q) in
  change (np_var [0.2; 0.4; 0.6]%Q) with v.
  unfold Q2R. simpl. lra.
Qed.

(** C9.  On a well-formed table of per-round bundles, the means table holds
    for every method and every metric name the sum of the metric's per-round
    values divided by their number, and the standard-deviation table the
    square root of their mean squared deviation from that mean (population
    standard deviation); values [0.2, 0.4, 0.6] give mean [0.4] and standard
    deviation [sqrt(((0.2-0.4)^2 + (0.4-0.4)^2 + (0.6-0.4)^2) / 3)]. *)
Theorem reducer_mean_and_population_std (metrics : dict string (list bundle)) :
  uniform metrics →
  (∃ means sds,
     reduce np_mean metrics = Ok means ∧
     reduce np_std metrics = Ok sds ∧
     ∀ method lists (first : bundle) metric,
       dict_get method metrics = Some lists →
       lists !! 0 = Some first →
       metric ∈ dict_keys first →
       ∃ vals rowm rows,
         Forall2 (λ (m : bundle) v, dict_get metric m = Some v) lists vals ∧
         dict_get method means = Some rowm ∧
         dict_get metric rowm
         = Some (foldr Qplus 0 vals / inject_Z (Z.of_nat (length lists)))%Q ∧
         dict_get method sds = Some rows ∧
         dict_get metric rows
         = Some (sqrt (Q2R
             (foldr Qplus 0 ((λ x, (x - np_mean vals) ^ 2) <$> vals)
              / inject_Z (Z.of_nat (length lists)))%Q))) ∧
  (np_mean [0.2; 0.4; 0.6] == 0.4)%Q ∧
  np_std [0.2; 0.4; 0.6]%Q
  = sqrt (((0.2 - 0.4) ^ 2 + (0.4 - 0.4) ^ 2 + (0.6 - 0.4) ^ 2) / 3)%R.
Proof.
  intros Hwf. split; [|split; [apply np_mean_three_rounds
                             |apply np_std_three_rounds]].
  destruct (reduce_Ok np_mean metrics Hwf) as (means&Hmeans&Hm).
  destruct (reduce_Ok np_std metrics Hwf) as (sds&Hsds&Hs).
  exists means, sds. split_and!; [done..|].
  intros method lists first metric Hlists Hfirst Hmetric.
  destruct (Hm _ _ _ _ Hlists Hfirst Hmetric) as (vals&rowm&Hvals&Hrowm&Hvm).
  destruct (Hs _ _ _ _ Hlists Hfirst Hmetric) as (vals'&rows&Hvals'&Hrows&Hvs).
  rewrite Hvals in Hvals'. injection Hvals' as <-.
  apply comprehension_Ok in Hvals.
  assert (Forall2 (λ (m : bundle) v, dict_get metric m = Some v) lists vals)
    as Hcol.
  { eapply Forall2_impl; [done|]. intros m v. apply subscript_Ok. }
  exists vals, rowm, rows.
  rewrite (Forall2_length _ _ _ Hcol), <-np_std_population.
  done.
Qed.

Lemma three_rounds_uniform : uniform three_rounds.
Proof.
  split; [by apply (bool_decide_unpack _)|].
  repeat constructor;
    (eexists; split_and!;
      [reflexivity
      |by apply (bool_decide_unpack _)
      |repeat constructor; intros k Hk;
       repeat (apply elem_of_cons in Hk as [->|Hk]);
       first [by eexists | by apply elem_of_nil in Hk]]).
Defined.

Lemma reducer_mean_and_population_std_witness :
  uniform three_rounds ∧
  (∃ means sds,
     reduce np_mean three_rounds = Ok means ∧
     reduce np_std three_rounds = Ok sds ∧
     ∀ method lists (first : bundle) metric,
       dict_get method three_rounds = Some lists →
       lists !! 0 = Some first →
       metric ∈ dict_keys first →
       ∃ vals rowm rows,
         Forall2 (λ (m : bundle) v, dict_get metric m = Some v) lists vals ∧
         dict_get method means = Some rowm ∧
         dict_get metric rowm
         = Some (foldr Qplus 0 vals / inject_Z (Z.of_nat (length lists)))%Q ∧
         dict_get method sds = Some rows ∧
         dict_get metric rows
         = Some (sqrt (Q2R
             (foldr Qplus 0 ((λ x, (x - np_mean vals) ^ 2) <$> vals)
              / inject_Z (Z.of_nat (length lists)))%Q))) ∧
  (np_mean [0.2; 0.4; 0.6] == 0.4)%Q ∧
  np_std [0.2; 0.4; 0.6]%Q
  = sqrt (((0.2 - 0.4) ^ 2 + (0.4 - 0.4) ^ 2 + (0.6 - 0.4) ^ 2) / 3)%R.
Proof.
  split.
  - exact three_rounds_uniform.
  - apply (reducer_mean_and_population_std three_rounds).
    exact three_rounds_uniform.
Defined.

Example reduce_three_rounds :
  lowest_terms <$> reduce np_mean three_rounds
  = Ok [("A", [("MAP", 2 # 5); ("P@10", 2 # 5)]);
        ("B", [("MAP", 1 # 5); ("P@10", 1 # 2)])]%Q.
Proof. by vm_compute. Qed.

(** ** A small benchmark *)

Example toy_run_two_rounds :
  event_tag <$> log (toy_run ["Baseline"; "CLUE"] toy_world).2
  = [TRound 0; TInvoke "Baseline"; TScore 2; TAggregate 2;
                TInvoke "CLUE"; TScore 2; TAggregate 2;
     TRound 1; TInvoke "Baseline"; TScore 2; TAggregate 2;
                TInvoke "CLUE"; TScore 2; TAggregate 2].
Proof. by vm_compute. Qed.

(** C3, as stated, fails: with methods [Baseline, Foo] the unknown name
    [Foo] is only met after [Baseline] has been invoked and scored in the
    first round. *)
Lemma unknown_method_found_mid_sweep :
  "Foo" ∈ methods (toy_args ["Baseline"; "Foo"]) ∧
  dict_get "Foo" (METHODS (toy_method []) (toy_method []) (toy_method [])
                    (toy_method [])) = None ∧
  (toy_run ["Baseline"; "Foo"] toy_world).1 = Raise KeyError ∧
  event_tag <$> log (toy_run ["Baseline"; "Foo"] toy_world).2
  = [TRound 0; TInvoke "Baseline"; TScore 2; TAggregate 2] ∧
  ¬ rejected_before_rounds (toy_run ["Baseline"; "Foo"]) toy_world.
Proof.
  split_and!; [right; left|by vm_compute..|].
  intros [_ Hlog]. apply (f_equal length) in Hlog. vm_compute in Hlog.
  discriminate Hlog.
Qed.

Lemma unknown_method_raises_in_first_round_witness :
  let a := toy_args ["Baseline"; "Foo"] in
  let step :=
    method_step (toy_method [100; 1; 9; 2]%Z) (toy_method [6; 4; 200]%Z)
      (toy_method []) (toy_method []) toy_precision_at_k
      toy_avg_query_metrics tt a [] tt toy_queries in
  let sweep :=
    for_eachM step ["Baseline"] ([], [])
      (World (ext toy_world) (log toy_world ++ [EvRound 0])) in
  let out := toy_run ["Baseline"; "Foo"] toy_world in
  out = (sweep.1 ≫= (λ _, Raise KeyError), sweep.2) ∧
  (∃ e, out.1 = Raise e) ∧
  ∃ evs, log out.2 = log toy_world ++ EvRound 0 :: evs ∧
         Forall (λ ev, ∀ r, ev ≠ EvRound r) evs.
Proof.
  apply (unknown_method_raises_in_first_round
           (toy_method [100; 1; 9; 2]%Z) (toy_method [6; 4; 200]%Z)
           (toy_method []) (toy_method []) toy_precision_at_k
           toy_avg_query_metrics tt (toy_args ["Baseline"; "Foo"]) [] tt
           toy_queries ["Baseline"] "Foo" [] toy_world).
  - reflexivity.
  - by vm_compute.
  - simpl. lia.
Defined.


Lemma toy_step_returns :
  toy_step "Baseline" toy_world
  = (Ok toy_tables, (toy_step "Baseline" toy_world).2).
Proof.
  unfold toy_tables.
  destruct (toy_step "Baseline" toy_world) as [[st|e] w] eqn:Hstep; [done|].
  apply (f_equal fst) in Hstep. vm_compute in Hstep. discriminate Hstep.
Qed.

Lemma toy_method_step_returns :
  method_step (toy_method [100; 1; 9; 2]%Z) (toy_method [6; 4; 200]%Z)
    (toy_method []) (toy_method []) toy_precision_at_k toy_avg_query_metrics
    tt (toy_args ["Baseline"]) [] tt toy_queries ([], []) "Baseline" toy_world
  = (Ok toy_tables, (toy_step "Baseline" toy_world).2).
Proof. vm_compute. reflexivity. Qed.

Lemma toy_queries_NoDup : NoDup (dict_keys toy_queries).
Proof. by apply (bool_decide_unpack _). Qed.

Lemma exclude_set_consistent_witness :
  let sel := select_clusters false 10 in
  let w' := (toy_step "Baseline" toy_world).2 in
  ∃ p f x (retrieved : @retrieval nat Q) sargs arg,
    dict_get "Baseline"
      (METHODS (toy_method [100; 1; 9; 2]%Z) (toy_method [6; 4; 200]%Z)
         (toy_method []) (toy_method [])) = Some f ∧
    f tt toy_queries sel p (ext toy_world) = (Ok retrieved, x) ∧
    log w' = log toy_world ++
      [EvInvoke "Baseline" sel p; EvScore sargs; EvAggregate arg false] ∧
    length sargs = length retrieved ∧
    (∀ n qid ret d, retrieved !! n = Some (qid, (ret, d)) →
       ∃ q entry,
         dict_get qid toy_queries = Some q ∧
         sargs !! n = Some (seq 1 100, relevant q, ret,
                            {[img_id q]} ∪ default ∅ (ignore q)) ∧
         dict_get qid arg = Some entry ∧
         s_ignore entry = {[img_id q]} ∪ default ∅ (ignore q)) ∧
    (∀ qid q, dict_get qid toy_queries = Some q →
       ∃ entry, dict_get qid arg = Some entry ∧
                s_ignore entry = {[img_id q]} ∪ default ∅ (ignore q)).
Proof.
  apply (exclude_set_consistent
           (toy_method [100; 1; 9; 2]%Z) (toy_method [6; 4; 200]%Z)
           (toy_method []) (toy_method []) toy_precision_at_k
           toy_avg_query_metrics tt (toy_args ["Baseline"]) [] tt
           toy_queries ([], []) "Baseline" toy_world toy_tables).
  - exact toy_queries_NoDup.
  - exact toy_method_step_returns.
Defined.

Lemma P_at_k_read_off_curve_witness :
  let sel := select_clusters false 10 in
  let w' := (toy_step "Baseline" toy_world).2 in
  ∃ p sargs (arg : dict nat scored) curve b,
    log w' = log toy_world ++
      [EvInvoke "Baseline" sel p; EvScore sargs; EvAggregate arg false] ∧
    Forall (λ t : score_arg, t.1.1.1 = seq 1 100) sargs ∧
    np_mean_axis0
      ((λ t : score_arg, toy_precision_at_k t.1.1.1 t.1.1.2 t.1.2 t.2)
         <$> sargs) = Ok curve ∧
    dict_get "Baseline" toy_tables.2 = Some ([] ++ [curve]) ∧
    dict_get "Baseline" toy_tables.1 = Some ([] ++ [b]) ∧
    (∀ pk, pk ∈ [1; 10; 50; 100] →
       ∃ v, curve !! (pk - 1) = Some v ∧ dict_get (P_at pk) b = Some v) ∧
    (∀ k, k ∉ P_at <$> [1; 10; 50; 100] →
       dict_get k b = dict_get k (toy_avg_query_metrics arg false)).
Proof.
  apply (P_at_k_read_off_curve
           (toy_method [100; 1; 9; 2]%Z) (toy_method [6; 4; 200]%Z)
           (toy_method []) (toy_method []) toy_precision_at_k
           toy_avg_query_metrics tt (toy_args ["Baseline"]) [] tt
           toy_queries ([], []) "Baseline" toy_world toy_tables).
  exact toy_method_step_returns.
Defined.

(** The bundle of the toy step: precision 1 at rank 1 for the first query
    and 0 for the second, hence [P@1 = 1/2]. *)
Example toy_step_bundle :
  (λ b : bundle, map (λ kv : string * Q, (kv.1, Qred kv.2)) b)
    <$> (toy_tables.1 : dict string (list bundle)) !! 0 ≫= (λ ml, ml.2 !! 0)
  = Some [("queries", 2); ("P@1", 1 # 2); ("P@10", 1 # 10);
          ("P@50", 1 # 50); ("P@100", 1 # 100)]%Q.
Proof. by vm_compute. Qed.

(** ** Further properties of the oracles *)

Lemma ratio_le_1 q c : (ratio q c <= 1)%Q.
Proof.
  unfold ratio. destruct c as [|x c]; [done|].
  apply Qle_shift_div_r.
  - change 0%Q with (inject_Z 0). rewrite <-Zlt_Qlt. simpl. lia.
  - rewrite Qmult_1_l, <-Zle_Qle. apply inj_le. unfold hits.
    apply length_filter.
Qed.

Lemma precision_Ok_inv q c p : precision q c = Ok p → c ≠ [] ∧ p = ratio q c.
Proof.
  destruct c as [|x c]; [done|]. rewrite precision_nonempty by done.
  by intros [= <-].
Qed.

(** X1.  A precision the oracle computes lies between 0 and 1. *)
Theorem precision_bounds (q : query) (c : cluster) (p : Q) :
  precision q c = Ok p → (0 <= p <= 1)%Q.
Proof.
  intros [_ ->]%precision_Ok_inv. split; [apply ratio_nonneg|apply ratio_le_1].
Qed.

Lemma precision_bounds_witness :
  precision tie_query [1; 2; 9; 8]%Z = Ok (2 / 4)%Q ∧ (0 <= 2 / 4 <= 1)%Q.
Proof.
  split; [by vm_compute|].
  apply (precision_bounds tie_query [1; 2; 9; 8]%Z). by vm_compute.
Defined.

Lemma length_filter_all {A} (P : A → Prop) `{∀ x, Decision (P x)} (l : list A) :
  length (filter P l) = length l ↔ Forall P l.
Proof.
  induction l as [|x l IH]; [by split; [constructor|]|].
  rewrite filter_cons, Forall_cons. case_decide as Hx; simpl.
  - rewrite <-IH. split; [intros [= ?]; by split | intros [_ ->]; done].
  - pose proof (length_filter P l). split; [lia|tauto].
Qed.

Lemma length_filter_none {A} (P : A → Prop) `{∀ x, Decision (P x)} (l : list A) :
  length (filter P l) = 0 ↔ Forall (λ x, ¬ P x) l.
Proof.
  induction l as [|x l IH]; [by split; [constructor|]|].
  rewrite filter_cons, Forall_cons. case_decide as Hx; simpl.
  - split; [done|tauto].
  - rewrite IH. tauto.
Qed.

Lemma ratio_eq_1 q c : c ≠ [] → (ratio q c == 1)%Q ↔ hits q c = length c.
Proof.
  intros Hc. unfold ratio.
  assert (¬ inject_Z (Z.of_nat (length c)) == 0)%Q as Hnz.
  { change 0%Q with (inject_Z 0). intros Hz%inject_Z_injective.
    destruct c; [done | discriminate Hz]. }
  split.
  - intros Heq.
    assert (inject_Z (Z.of_nat (hits q c)) == inject_Z (Z.of_nat (length c)))%Q
      as Hinj.
    { rewrite <-(Qmult_div_r (inject_Z (Z.of_nat (hits q c))) _ Hnz), Heq.
      apply Qmult_1_r. }
    unfold Qeq in Hinj. simpl in Hinj. lia.
  - intros ->. unfold Qdiv. by apply Qmult_inv_r.
Qed.

Lemma ratio_eq_0 q c : c ≠ [] → (ratio q c == 0)%Q ↔ hits q c = 0.
Proof.
  intros Hc. unfold ratio.
  assert (¬ inject_Z (Z.of_nat (length c)) == 0)%Q as Hnz.
  { change 0%Q with (inject_Z 0). intros Hz%inject_Z_injective.
    destruct c; [done | discriminate Hz]. }
  split.
  - intros Heq.
    assert (inject_Z (Z.of_nat (hits q c)) == inject_Z 0)%Q as Hinj.
    { rewrite <-(Qmult_div_r (inject_Z (Z.of_nat (hits q c))) _ Hnz), Heq.
      apply Qmult_0_r. }
    unfold Qeq in Hinj. simpl in Hinj. lia.
  - intros ->. reflexivity.
Qed.

(** X2.  The precision of a cluster is 1 exactly when every entry is
    relevant, and 0 exactly when none is. *)
Theorem precision_extremes (q : query) (c : cluster) (p : Q) :
  precision q c = Ok p →
  (p == 1 ↔ Forall (λ id, id ∈ relevant q) c) ∧
  (p == 0 ↔ Forall (λ id, id ∉ relevant q) c).
Proof.
  intros [Hc ->]%precision_Ok_inv. split.
  - rewrite ratio_eq_1 by done. apply length_filter_all.
  - rewrite ratio_eq_0 by done. apply length_filter_none.
Qed.

Lemma precision_extremes_witness :
  precision tie_query [1; 2]%Z = Ok (2 / 2)%Q ∧
  ((2 / 2 == 1)%Q ↔ Forall (λ id, id ∈ relevant tie_query) [1; 2]%Z) ∧
  ((2 / 2 == 0)%Q ↔ Forall (λ id, id ∉ relevant tie_query) [1; 2]%Z).
Proof.
  split; [by vm_compute|].
  apply (precision_extremes tie_query [1; 2]%Z). by vm_compute.
Defined.

(** X3.  The precision of a cluster does not depend on the order of its
    entries. *)
Theorem precision_Permutation (q : query) (c c' : cluster) :
  c ≡ₚ c' → precision q c = precision q c'.
Proof.
  intros Hperm. unfold precision. rewrite !py_sum_ones.
  by rewrite (Permutation_length Hperm),
    (Permutation_length (filter_Permutation _ _ _ Hperm)).
Qed.

Lemma precision_Permutation_witness :
  [1; 9; 2]%Z ≡ₚ [9; 2; 1]%Z ∧
  precision tie_query [1; 9; 2]%Z = precision tie_query [9; 2; 1]%Z.
Proof.
  assert ([1; 9; 2]%Z ≡ₚ [9; 2; 1]%Z) as Hperm.
  { apply (Permutation_cons_app [9; 2]%Z []). reflexivity. }
  split; [exact Hperm|].
  apply (precision_Permutation tie_query [1; 9; 2]%Z [9; 2; 1]%Z Hperm).
Defined.

(** X4.  Each oracle returns exactly when no cluster is empty, and the only
    exception it ever raises is [ZeroDivisionError]. *)
Theorem oracle_raises_iff (q : query) (cl : list cluster) (t : Q) :
  (is_Ok (select_clusters_by_precision q cl t) ↔ Forall (λ c, c ≠ []) cl) ∧
  (is_Ok (select_best_cluster q cl) ↔ Forall (λ c, c ≠ []) cl) ∧
  (∀ e, select_clusters_by_precision q cl t = Raise e → e = ZeroDivisionError) ∧
  (∀ e, select_best_cluster q cl = Raise e → e = ZeroDivisionError).
Proof.
  unfold select_best_cluster.
  destruct (decide ([] ∈ cl)) as [Hin|Hnin].
  - rewrite !select_clusters_by_precision_empty by done.
    assert (¬ Forall (λ c : cluster, c ≠ []) cl) as Hnot.
    { rewrite Forall_forall. intros Hall. by apply (Hall [] Hin). }
    split_and!; try (split; [by intros [? [=]] | done]);
      by intros e [= <-].
  - assert (Forall (λ c : cluster, c ≠ []) cl) as Hall.
    { apply Forall_forall. by intros c Hc ->. }
    rewrite !select_clusters_by_precision_Ok by done.
    split_and!; try (split; [done | by eexists]); by intros e [=].
Qed.

Lemma qualifies_lt q cl t i : qualifies q cl t i → i < length cl.
Proof. intros (c&p&Hc&_). by eapply lookup_lt_Some. Qed.

Lemma passes_qualifies q cl t i : passes q cl t i ↔ qualifies q cl t i.
Proof.
  unfold passes, qualifies. split.
  - destruct (cl !! i) as [c|]; [|done].
    destruct (precision q c) as [p|e] eqn:Hp; [|done].
    intros Hle%Is_true_true%Qle_bool_iff. by exists c, p.
  - intros (c&p&->&->&Hle). by apply Is_true_true, Qle_bool_iff.
Qed.

Lemma ranks_before_asym q cl i j :
  ranks_before q cl i j → ranks_before q cl j i → False.
Proof.
  intros (ci&cj&pi&pj&Hi&Hj&Hpi&Hpj&Hor) (cj'&ci'&pj'&pi'&Hj'&Hi'&Hpj'&Hpi'&Hor').
  rewrite Hi in Hi'. injection Hi' as <-. rewrite Hj in Hj'. injection Hj' as <-.
  rewrite Hpi in Hpi'. injection Hpi' as <-.
  rewrite Hpj in Hpj'. injection Hpj' as <-.
  destruct Hor as [Hlt|[Heq Hij]], Hor' as [Hlt'|[Heq' Hji]].
  - apply (Qlt_irrefl pi). by apply (Qlt_trans _ pj).
  - rewrite Heq' in Hlt. by apply Qlt_irrefl in Hlt.
  - rewrite Heq in Hlt'. by apply Qlt_irrefl in Hlt'.
  - lia.
Qed.

Lemma StronglySorted_filter {A} (R : relation A) (P : A → Prop)
    `{∀ x, Decision (P x)} (l : list A) :
  StronglySorted R l → StronglySorted R (filter P l).
Proof.
  induction 1 as [|x l Hl IH Hx]; [constructor|].
  rewrite filter_cons. case_decide; [|done]. constructor; [done|].
  rewrite Forall_forall in Hx. apply Forall_forall.
  intros y [_ Hy]%list_elem_of_filter. auto.
Qed.

(** Raising the threshold filters the selection. *)
Lemma selection_filter q cl t t' s s' :
  (t <= t')%Q →
  Forall (λ c, c ≠ []) cl →
  select_clusters_by_precision q cl t = Ok s →
  select_clusters_by_precision q cl t' = Ok s' →
  s' = filter (λ i, passes q cl t' i) s.
Proof.
  intros Hle Hne Hs Hs'.
  destruct (select_clusters_by_precision_sorted q cl t Hne)
    as (s0&Hs0&Hnd&Hin&Hsort).
  destruct (select_clusters_by_precision_sorted q cl t' Hne)
    as (s0'&Hs0'&Hnd'&Hin'&Hsort').
  rewrite Hs in Hs0. injection Hs0 as <-.
  rewrite Hs' in Hs0'. injection Hs0' as <-.
  apply (StronglySorted_unique_strong (ranks_before q cl)).
  - intros i j _ _ Hij Hji. destruct (ranks_before_asym _ _ _ _ Hij Hji).
  - done.
  - by apply StronglySorted_filter.
  - apply NoDup_Permutation; [done|by apply NoDup_filter|].
    intros i. rewrite list_elem_of_filter, Hin', Hin, passes_qualifies.
    split; [|tauto]. intros Hq. split; [done|].
    destruct Hq as (c&p&?&?&?). exists c, p. split_and!; [done..|].
    by apply (Qle_trans _ t').
Qed.

(** X5.  The indices returned by the preview-truncated selector are distinct
    valid indices into the clusters it was given, whatever [num_preview]. *)
Theorem select_clusters_indices_valid
    (multiple : bool) (num_preview : Z) (q : query) (cl : list cluster)
    (sel : list nat) :
  select_clusters multiple num_preview q cl = Ok sel →
  NoDup sel ∧ Forall (λ i, i < length cl) sel.
Proof.
  unfold select_clusters. set (cl' := slice_to num_preview <$> cl).
  assert (length cl' = length cl) as <- by apply length_fmap.
  intros Hsel.
  assert (Forall (λ c : cluster, c ≠ []) cl') as Hne.
  { apply Forall_forall. intros c Hc ->.
    by rewrite select_clusters_func_empty in Hsel. }
  destruct (select_clusters_by_precision_sorted q cl'
              (if multiple then default_min_precision else 0) Hne)
    as (s&Hs&Hnd&Hin&_).
  assert (Forall (λ i, i < length cl') s) as Hvalid.
  { apply Forall_forall. intros i ?%Hin. by eapply qualifies_lt. }
  destruct multiple; simpl in Hsel.
  - rewrite Hs in Hsel. by injection Hsel as <-.
  - unfold select_best_cluster in Hsel. rewrite Hs in Hsel.
    injection Hsel as <-. split.
    + eapply sublist_NoDup; [done|apply sublist_take].
    + by apply Forall_take.
Qed.

Lemma select_clusters_indices_valid_witness :
  select_clusters true 2 tie_query tie_clusters = Ok [0; 1] ∧
  NoDup [0; 1] ∧ Forall (λ i, i < length tie_clusters) [0; 1].
Proof.
  split; [by vm_compute|].
  apply (select_clusters_indices_valid true 2 tie_query tie_clusters).
  by vm_compute.
Defined.

(** X6.  Raising the threshold only removes indices from the selection: the
    selection at [t'] is the selection at [t <= t'] without the indices
    whose precision is below [t'], in the same order. *)
Theorem selection_threshold_monotone
    (q : query) (cl : list cluster) (t t' : Q) (s s' : list nat) :
  (t <= t')%Q →
  select_clusters_by_precision q cl t = Ok s →
  select_clusters_by_precision q cl t' = Ok s' →
  s' = filter (λ i, passes q cl t' i) s ∧ s' `sublist_of` s.
Proof.
  intros Hle Hs Hs'.
  assert (Forall (λ c : cluster, c ≠ []) cl) as Hne.
  { apply Forall_forall. intros c Hc ->.
    by rewrite select_clusters_by_precision_empty in Hs. }
  rewrite (selection_filter q cl t t' s s') by done.
  split; [done|]. apply sublist_filter.
Qed.

Lemma selection_threshold_monotone_witness :
  (0.5 <= 0.9)%Q ∧
  select_clusters_by_precision tie_query [[1; 9]; [1; 2]; [9]]%Z 0.5
    = Ok [1; 0] ∧
  select_clusters_by_precision tie_query [[1; 9]; [1; 2]; [9]]%Z 0.9
    = Ok [1] ∧
  [1] = filter (λ i, passes tie_query [[1; 9]; [1; 2]; [9]]%Z 0.9 i) [1; 0] ∧
  [1] `sublist_of` [1; 0].
Proof.
  split; [by vm_compute|]. split; [by vm_compute|]. split; [by vm_compute|].
  apply (selection_threshold_monotone tie_query [[1; 9]; [1; 2]; [9]]%Z
           0.5 0.9 [1; 0] [1]); by vm_compute.
Defined.

(** X7.  A threshold of at most 0 selects every cluster, and a threshold
    above 1 selects none. *)
Theorem selection_threshold_extremes
    (q : query) (cl : list cluster) (t : Q) (s : list nat) :
  select_clusters_by_precision q cl t = Ok s →
  ((t <= 0)%Q → s ≡ₚ seq 0 (length cl)) ∧ ((1 < t)%Q → s = []).
Proof.
  intros Hs.
  assert (Forall (λ c : cluster, c ≠ []) cl) as Hne.
  { apply Forall_forall. intros c Hc ->.
    by rewrite select_clusters_by_precision_empty in Hs. }
  destruct (select_clusters_by_precision_sorted q cl t Hne)
    as (s0&Hs0&Hnd&Hin&_).
  rewrite Hs in Hs0. injection Hs0 as <-. split.
  - intros Ht. apply NoDup_Permutation; [done|apply NoDup_seq|].
    intros i. rewrite Hin, elem_of_seq. split.
    + intros ?%qualifies_lt. lia.
    + intros [_ Hi]. destruct (lookup_lt_is_Some_2 cl i) as [c Hc]; [lia|].
      exists c, (ratio q c). rewrite Forall_lookup in Hne.
      split_and!; [done|by eapply precision_nonempty, Hne|].
      apply (Qle_trans _ 0); [done|apply ratio_nonneg].
  - intros Ht. destruct s as [|i s]; [done|].
    destruct (proj1 (Hin i)) as (c&p&_&[_ ->]%precision_Ok_inv&Hle); [left|].
    exfalso. apply (Qlt_irrefl 1). eapply Qlt_le_trans; [done|].
    apply (Qle_trans _ (ratio q c)); [done|apply ratio_le_1].
Qed.

Lemma selection_threshold_extremes_witness :
  select_clusters_by_precision tie_query [[1; 9]; [1; 2]; [9]]%Z 0
    = Ok [1; 0; 2] ∧
  ((0 <= 0)%Q → [1; 0; 2] ≡ₚ seq 0 3) ∧ ((1 < 0)%Q → [1; 0; 2] = []).
Proof.
  split; [by vm_compute|].
  apply (selection_threshold_extremes tie_query [[1; 9]; [1; 2]; [9]]%Z 0).
  by vm_compute.
Defined.

(** X8.  Whenever the multi-select policy selects anything, its first index
    is the one the best-single policy returns. *)
Theorem best_cluster_heads_selection
    (q : query) (cl : list cluster) (t : Q) (i : nat) (rest : list nat) :
  select_clusters_by_precision q cl t = Ok (i :: rest) →
  select_best_cluster q cl = Ok [i].
Proof.
  intros Hs.
  assert (Forall (λ c : cluster, c ≠ []) cl) as Hne.
  { apply Forall_forall. intros c Hc ->.
    by rewrite select_clusters_by_precision_empty in Hs. }
  destruct (select_clusters_by_precision_sorted q cl 0 Hne)
    as (s0&Hs0&Hnd0&Hin0&Hsort0).
  unfold select_best_cluster. rewrite Hs0. simpl. f_equal.
  destruct (Qlt_le_dec t 0) as [Hneg|Hpos].
  - (* every cluster passes a negative threshold *)
    rewrite (selection_filter q cl t 0 (i :: rest) s0) by
      (done || by apply Qlt_le_weak).
    destruct (select_clusters_by_precision_sorted q cl t Hne)
      as (s&Hs'&_&Hin&_).
    rewrite Hs in Hs'. injection Hs' as <-.
    rewrite filter_cons_True; [done|].
    apply passes_qualifies. destruct (proj1 (Hin i)) as (c&p&Hc&Hp&_); [left|].
    exists c, p. split_and!; [done..|].
    apply precision_Ok_inv in Hp as [_ ->]. apply ratio_nonneg.
  - pose proof (selection_filter q cl 0 t s0 (i :: rest) Hpos Hne Hs0 Hs)
      as Hfilter.
    destruct s0 as [|j s0]; [done|].
    rewrite filter_cons in Hfilter. case_decide as Hj.
    + by injection Hfilter as ->.
    + exfalso. apply Hj.
      assert (i ∈ filter (λ i, passes q cl t i) s0) as Hi
        by (rewrite <-Hfilter; left).
      apply list_elem_of_filter in Hi as [Hpi Hi].
      apply StronglySorted_inv in Hsort0 as [_ Hhd].
      rewrite Forall_forall in Hhd.
      destruct (Hhd i Hi) as (cj&ci&pj&pi&Hcj&Hci&Hpj&Hpi'&Hor).
      apply passes_qualifies in Hpi as (ci'&pi'&Hci'&Hpi''&Hle).
      rewrite Hci in Hci'. injection Hci' as <-.
      rewrite Hpi' in Hpi''. injection Hpi'' as <-.
      apply passes_qualifies. exists cj, pj. split_and!; [done..|].
      apply (Qle_trans _ pi); [done|].
      destruct Hor as [?|[-> _]]; [by apply Qlt_le_weak|apply Qle_refl].
Qed.

Lemma best_cluster_heads_selection_witness :
  select_clusters_by_precision tie_query [[1; 9]; [1; 2]; [9]]%Z 0.5
    = Ok [1; 0] ∧
  select_best_cluster tie_query [[1; 9]; [1; 2]; [9]]%Z = Ok [1].
Proof.
  split; [by vm_compute|].
  apply (best_cluster_heads_selection tie_query [[1; 9]; [1; 2]; [9]]%Z
           0.5 1 [0]).
  by vm_compute.
Defined.

(** X9.  A preview at least as long as every cluster changes nothing: the
    selector then is the bare policy. *)
Theorem select_clusters_long_preview
    (multiple : bool) (num_preview : Z) (q : query) (cl : list cluster) :
  Forall (λ c : cluster, (Z.of_nat (length c) ≤ num_preview)%Z) cl →
  select_clusters multiple num_preview q cl = select_clusters_func multiple q cl.
Proof.
  intros Hlen. unfold select_clusters. f_equal.
  rewrite <-(list_fmap_id cl) at 2. apply Forall_fmap_ext.
  eapply Forall_impl; [done|]. intros c Hc. cbv beta in Hc. simpl.
  rewrite slice_to_nonneg by lia. apply take_ge. lia.
Qed.

Lemma select_clusters_long_preview_witness :
  Forall (λ c : cluster, (Z.of_nat (length c) ≤ 10)%Z) tie_clusters ∧
  select_clusters true 10 tie_query tie_clusters
  = select_clusters_func true tie_query tie_clusters.
Proof.
  assert (Forall (λ c : cluster, (Z.of_nat (length c) ≤ 10)%Z) tie_clusters)
    as Hlen by (repeat constructor; simpl; lia).
  split; [exact Hlen|].
  apply (select_clusters_long_preview true 10 tie_query tie_clusters Hlen).
Defined.

(** ** The keyword parameters of the algorithms (lines 84-92) *)

Lemma dict_keys_set {K V} `{EqDecision K} (d : dict K V) k v k' :
  k' ∈ dict_keys (dict_set k v d) ↔ k' = k ∨ k' ∈ dict_keys d.
Proof.
  destruct (decide (k' ∈ dict_keys (dict_set k v d))) as [Hin|Hnin].
  - split; [intros _|done]. destruct (decide (k' = k)) as [|Hne]; [by left|].
    right. destruct (decide (k' ∈ dict_keys d)) as [|Hnin]; [done|].
    apply dict_get_None in Hnin. exfalso.
    assert (dict_get k' (dict_set k v d) = None) as Hget
      by (by rewrite dict_get_set_ne).
    by apply dict_get_None in Hget.
  - split; [done|]. intros [->|Hin]; exfalso.
    + apply dict_get_None in Hnin. by rewrite dict_get_set_eq in Hnin.
    + apply dict_get_None in Hnin. destruct (decide (k = k')) as [->|Hne].
      * by rewrite dict_get_set_eq in Hnin.
      * rewrite dict_get_set_ne in Hnin by done.
        by apply dict_get_None in Hnin.
Qed.

Lemma dict_set_keys_NoDup {K V} `{EqDecision K} (d : dict K V) k v :
  NoDup (dict_keys d) → NoDup (dict_keys (dict_set k v d)).
Proof.
  unfold dict_keys. induction d as [|[k0 v0] d IH]; simpl.
  - intros _. apply NoDup_singleton.
  - rewrite NoDup_cons. intros [Hk0 Hnd]. case_decide; subst; csimpl.
    + by apply NoDup_cons.
    + apply NoDup_cons. split; [|by apply IH].
      intros [?|?]%(dict_keys_set d k v k0); [congruence|done].
Qed.

Lemma parse_body_lookup {V} (acc : dict string (dict string V))
    (item : string * option V) (algo p : string) :
  dict_get algo (parse_body acc item) ≫= dict_get p
  = match contributes algo p item with
    | Some v => Some v
    | None => dict_get algo acc ≫= dict_get p
    end.
Proof.
  unfold parse_body, contributes.
  destruct (split_once item.1) as [[a p']|]; [|done].
  destruct item.2 as [v|]; [|done]. cbv zeta.
  case_bool_decide as Hin.
  - destruct (decide (lower a = algo)) as [<-|Hne].
    + rewrite dict_get_set_eq. simpl.
      destruct (decide (p' = p)) as [->|Hp].
      * rewrite dict_get_set_eq. by rewrite bool_decide_true.
      * rewrite dict_get_set_ne by done.
        rewrite bool_decide_false by (by intros (_&?&_)).
        by destruct (dict_get (lower a) acc).
    + rewrite dict_get_set_ne by done.
      by rewrite bool_decide_false by (by intros (?&_&_)).
  - rewrite bool_decide_false; [done|]. intros (<-&_&?). done.
Qed.

Lemma parse_body_keys {V} (acc : dict string (dict string V))
    (item : string * option V) :
  NoDup (dict_keys acc) ∧ dict_keys acc ⊆ algo_names →
  NoDup (dict_keys (parse_body acc item)) ∧
  dict_keys (parse_body acc item) ⊆ algo_names.
Proof.
  intros [Hnd Hsub]. unfold parse_body.
  destruct (split_once item.1) as [[a p']|]; [|done].
  destruct item.2 as [v|]; [|done]. cbv zeta.
  case_bool_decide as Hin; [|done]. split.
  - by apply dict_set_keys_NoDup.
  - intros k [->|?]%dict_keys_set; [done|by apply Hsub].
Qed.

(** X10.  [algo_params] only ever has the keys [aid], [clue] and
    [hard-select], each once; and the value recorded for a parameter of an
    algorithm is the one of the last command-line item that is set, whose
    name splits at its first underscore into the algorithm name (in any
    letter case) and the parameter name. *)
Theorem parse_algo_params_spec {V} (items : list (string * option V)) :
  NoDup (dict_keys (parse_algo_params items)) ∧
  dict_keys (parse_algo_params items) ⊆ algo_names ∧
  ∀ algo p,
    dict_get algo (parse_algo_params items) ≫= dict_get p
    = last_contribution algo p items.
Proof.
  unfold parse_algo_params, last_contribution.
  assert (∀ acc : dict string (dict string V),
    NoDup (dict_keys acc) ∧ dict_keys acc ⊆ algo_names →
    NoDup (dict_keys (foldl parse_body acc items)) ∧
    dict_keys (foldl parse_body acc items) ⊆ algo_names) as Hkeys.
  { induction items as [|item items IH]; intros acc Hacc; [done|].
    simpl. by apply IH, parse_body_keys. }
  destruct (Hkeys []) as [Hnd Hsub].
  { split; [apply NoDup_nil_2|]. by intros k ?%elem_of_nil. }
  split_and!; [done..|]. clear Hkeys Hnd Hsub. intros algo p.
  change (@None V) with (dict_get algo ([] : dict string (dict string V))
                         ≫= dict_get p).
  generalize ([] : dict string (dict string V)).
  induction items as [|item items IH]; intros acc; [done|].
  cbn [foldl]. by rewrite IH, parse_body_lookup.
Qed.

Lemma lower_ascii_hyphen (a : ascii) :
  Ascii.eqb "-" (lower_ascii a) = Ascii.eqb "-" a.
Proof. destruct a as [[] [] [] [] [] [] [] []]; vm_compute; reflexivity. Qed.

Lemma has_char_lower_hyphen (s : string) :
  has_char "-" (lower s) = has_char "-" s.
Proof.
  induction s as [|a s IH]; [done|].
  cbn [lower has_char]. by rewrite lower_ascii_hyphen, IH.
Qed.

Lemma split_once_has_char (x : ascii) (s l r : string) :
  split_once s = Some (l, r) → has_char x l → has_char x s.
Proof.
  revert l. induction s as [|a s IH]; intros l; [done|]. cbn [split_once].
  destruct (Ascii.eqb a "_").
  - by intros [= <- <-].
  - destruct (split_once s) as [[l' r']|]; [|done]. intros [= <- <-].
    cbn [has_char]. specialize (IH l' eq_refl).
    destruct (Ascii.eqb x a); [done|]. simpl. auto.
Qed.

(** X11.  The key [hard-select], under which the driver looks up the
    parameters of the method [Hard-Select], can only come from an item whose
    name contains a hyphen: when no name does, that method gets no
    parameter. *)
Theorem parse_algo_params_hyphen {V} (items : list (string * option V)) :
  Forall (λ item, has_char "-" item.1 = false) items →
  lower "Hard-Select" = "hard-select" ∧
  dict_get (lower "Hard-Select") (parse_algo_params items) = None.
Proof.
  intros Hitems. split; [done|]. change (lower "Hard-Select") with "hard-select".
  unfold parse_algo_params.
  assert (dict_get "hard-select" ([] : dict string (dict string V)) = None)
    as Hacc by done.
  revert Hacc. generalize ([] : dict string (dict string V)).
  induction Hitems as [|item items Hitem _ IH]; intros acc Hacc; [done|].
  simpl. apply IH. unfold parse_body.
  destruct (split_once item.1) as [[a p]|] eqn:Hsplit; [|done].
  destruct item.2 as [v|]; [|done]. cbv zeta.
  case_bool_decide; [|done]. rewrite dict_get_set_ne; [done|].
  intros Heq. apply (f_equal (has_char "-")) in Heq.
  rewrite has_char_lower_hyphen in Heq.
  assert (has_char "-" a) as Ha by (rewrite Heq; done).
  apply (split_once_has_char _ _ _ _ Hsplit) in Ha.
  rewrite Hitem in Ha. done.
Qed.

Lemma parse_algo_params_hyphen_witness :
  Forall (λ item : string * option nat, has_char "-" item.1 = false)
    [("methods", None); ("num_preview", Some 10); ("aid_k", Some 200);
     ("hard_select_k", Some 100)] ∧
  lower "Hard-Select" = "hard-select" ∧
  dict_get (lower "Hard-Select")
    (parse_algo_params
       [("methods", None); ("num_preview", Some 10); ("aid_k", Some 200);
        ("hard_select_k", Some 100)]) = None.
Proof.
  assert (Forall (λ item : string * option nat, has_char "-" item.1 = false)
    [("methods", None); ("num_preview", Some 10); ("aid_k", Some 200);
     ("hard_select_k", Some 100)]) as Hitems by (by repeat constructor).
  split; [exact Hitems|].
  apply (parse_algo_params_hyphen
    [("methods", None); ("num_preview", Some 10); ("aid_k", Some 200);
     ("hard_select_k", Some 100)] Hitems).
Defined.

Example parse_algo_params_values :
  parse_algo_params
    [("methods", None); ("num_preview", Some 10); ("aid_gamma", None);
     ("aid_k", Some 200); ("CLUE_T", Some 3); ("aid_max_clusters", Some 10);
     ("hard_select_k", Some 100); ("hard-select_k", Some 50);
     ("aid_k", Some 300)]
  = [("aid", [("k", 300); ("max_clusters", 10)]);
     ("clue", [("T", 3)]);
     ("hard-select", [("k", 50)])].
Proof. by vm_compute. Qed.

(** ** Further properties of the driver *)

Lemma comprehension_Raise {A B} (f : A → result B) (l : list A) e :
  comprehension f l = Raise e → ∃ x, x ∈ l ∧ f x = Raise e.
Proof.
  induction l as [|x l IH]; [done|]. cbn [comprehension].
  destruct (f x) as [y|e'] eqn:Hx.
  - rewrite ret_bind. destruct (comprehension f l) as [ys|e'']; [done|].
    intros [= <-]. destruct IH as (x'&?&?); [done|]. exists x'. split; [by right|done].
  - intros [= <-]. exists x. split; [left|done].
Qed.

Lemma comprehension_is_Ok {A B} (f : A → result B) (l : list A) :
  is_Ok (comprehension f l) ↔ Forall (λ x, is_Ok (f x)) l.
Proof.
  split.
  - intros [ys Hys%comprehension_Ok].
    eapply Forall2_Forall_l; [done|]. apply Forall_forall.
    intros y _ x Hx. by exists y.
  - destruct (comprehension f l) as [ys|e] eqn:Hc; [by eexists|].
    apply comprehension_Raise in Hc as (x&Hin&Hx).
    rewrite Forall_forall. intros Hall. destruct (Hall x Hin) as [y Hy].
    congruence.
Qed.

Lemma subscript_is_Ok {K V} `{EqDecision K} (d : dict K V) k :
  is_Ok (subscript d k) ↔ k ∈ dict_keys d.
Proof.
  unfold subscript. destruct (dict_get k d) as [v|] eqn:Hk.
  - split; [intros _|by eexists].
    destruct (decide (k ∈ dict_keys d)) as [|Hn%dict_get_None]; [done|congruence].
  - apply dict_get_None in Hk. split; [by intros [? [=]]|done].
Qed.

Lemma subscript_Raise {K V} `{EqDecision K} (d : dict K V) k e :
  subscript d k = Raise e → e = KeyError.
Proof. unfold subscript. destruct (dict_get k d); by intros [= <-]. Qed.

(** *** Means of values between 0 and 1 *)

Lemma foldr_Qplus_unit (xs : list Q) :
  Forall unit_interval xs →
  (0 <= foldr Qplus 0 xs <= inject_Z (Z.of_nat (length xs)))%Q.
Proof.
  induction 1 as [|x xs [Hx0 Hx1] _ [IH0 IH1]]; [done|].
  cbn [foldr length]. split.
  - exact (Qplus_le_compat 0 x 0 _ Hx0 IH0).
  - rewrite Nat2Z.inj_succ. unfold Z.succ. rewrite inject_Z_plus, Qplus_comm.
    by apply Qplus_le_compat.
Qed.

Lemma np_mean_unit (xs : list Q) :
  xs ≠ [] → Forall unit_interval xs → unit_interval (np_mean xs).
Proof.
  intros Hxs [H0 H1]%foldr_Qplus_unit. unfold np_mean.
  assert (0 < inject_Z (Z.of_nat (length xs)))%Q as Hpos.
  { change 0%Q with (inject_Z 0). rewrite <-Zlt_Qlt.
    destruct xs; [done | simpl; lia]. }
  split.
  - apply Qle_shift_div_l; [done|]. by rewrite Qmult_0_l.
  - apply Qle_shift_div_r; [done|]. by rewrite Qmult_1_l.
Qed.


Lemma np_mean_axis0_unit (rows : list (list Q)) (curve : list Q) :
  np_mean_axis0 rows = Ok curve →
  Forall (Forall unit_interval) rows → Forall unit_interval curve.
Proof.
  intros Hcurve Hrows. destruct (decide (rows = [])) as [->|Hne].
  { injection Hcurve as <-. constructor. }
  assert (∃ n, curve
    = (λ j, np_mean ((λ r, nth j r 0%Q) <$> rows)) <$> seq 0 n) as [n ->].
  { destruct rows as [|r0 rows']; [done|]. unfold np_mean_axis0 in Hcurve.
    destruct (forallb _ _); [|done]. injection Hcurve as <-. by eexists. }
  apply Forall_fmap, Forall_forall. intros j _. unfold compose.
  apply np_mean_unit; [by destruct rows|]. apply Forall_fmap.
  eapply Forall_impl; [done|]. intros r Hr. unfold compose.
  destruct (nth_in_or_default j r 0%Q) as [Hin| ->]; [|done].
  rewrite Forall_forall in Hr. by apply Hr, list_elem_of_In.
Qed.

Section harness_more.
Context {QId : Type} `{EqDecision QId} {features params dist W : Type}.
Context (baseline_retrieval clue hard_cluster_selection
           automatic_image_disambiguation
         : @method_fn QId features params dist W).
Context (precision_at_k : list nat → gset Z → list Z → gset Z → list Q).
Context (avg_query_metrics : dict QId scored → bool → bundle).
Context (no_params : params).

Local Abbreviation M := (@M QId params W).
Local Abbreviation event := (@event QId params).
Local Abbreviation world := (@world QId params W).
Local Abbreviation retrieval := (@retrieval QId dist).
Local Abbreviation follows := (@follows QId params W _).
Local Abbreviation METHODS :=
  (METHODS baseline_retrieval clue hard_cluster_selection
     automatic_image_disambiguation).
Local Abbreviation method_step :=
  (method_step baseline_retrieval clue hard_cluster_selection
     automatic_image_disambiguation precision_at_k avg_query_metrics
     no_params).
Local Abbreviation run_benchmarks :=
  (run_benchmarks baseline_retrieval clue hard_cluster_selection
     automatic_image_disambiguation precision_at_k avg_query_metrics
     no_params).
Local Abbreviation main :=
  (main baseline_retrieval clue hard_cluster_selection
     automatic_image_disambiguation precision_at_k avg_query_metrics
     no_params).

(** *** What a method must return *)

Lemma score_args_is_Ok (queries : dict QId query) (retrieved : retrieval) :
  is_Ok (score_args queries retrieved)
  ↔ dict_keys retrieved ⊆ dict_keys queries.
Proof.
  unfold score_args. rewrite comprehension_is_Ok, Forall_forall. split.
  - intros Hall qid ([qid' r]&->&Hin)%list_elem_of_fmap.
    destruct (Hall _ Hin) as [t (q&Hq&_)%bind_Ok].
    apply subscript_is_Ok. by exists q.
  - intros Hsub [qid r] Hin.
    destruct (proj2 (subscript_is_Ok queries qid)) as [q Hq].
    { apply Hsub, list_elem_of_fmap. by exists (qid, r). }
    simpl. rewrite Hq. by eexists.
Qed.

Lemma aggregate_arg_is_Ok (queries : dict QId query) (retrieved : retrieval) :
  is_Ok (aggregate_arg queries retrieved)
  ↔ dict_keys queries ⊆ dict_keys retrieved.
Proof.
  unfold aggregate_arg.
  assert (∀ m : result (list (QId * scored)),
    is_Ok (dict_of_items <$> m) ↔ is_Ok m) as ->.
  { intros [l|e]; split; intros [? [=]]; by eexists. }
  rewrite comprehension_is_Ok, Forall_forall. split.
  - intros Hall qid ([qid' q]&->&Hin)%list_elem_of_fmap.
    destruct (Hall _ Hin) as [t (r&Hr&_)%bind_Ok].
    apply subscript_is_Ok. by exists r.
  - intros Hsub [qid q] Hin.
    destruct (proj2 (subscript_is_Ok retrieved qid)) as [r Hr].
    { apply Hsub, list_elem_of_fmap. by exists (qid, q). }
    simpl. rewrite Hr. by eexists.
Qed.

(** X12.  The argument tuples of the scorer can be built exactly when every
    query id the method returned is a known query, and the argument of
    [avg_query_metrics] exactly when the method returned a ranking for every
    query; otherwise the step stops with a [KeyError]. *)
Theorem scoring_arguments_raise_iff
    (queries : dict QId query) (retrieved : retrieval) :
  (is_Ok (score_args queries retrieved)
   ↔ dict_keys retrieved ⊆ dict_keys queries) ∧
  (is_Ok (aggregate_arg queries retrieved)
   ↔ dict_keys queries ⊆ dict_keys retrieved) ∧
  (∀ e, score_args queries retrieved = Raise e → e = KeyError) ∧
  (∀ e, aggregate_arg queries retrieved = Raise e → e = KeyError).
Proof.
  split_and!.
  - apply score_args_is_Ok.
  - apply aggregate_arg_is_Ok.
  - intros e (item&_&Hitem)%comprehension_Raise.
    destruct (subscript queries item.1) as [q|e'] eqn:Hq; [done|].
    injection Hitem as <-. by eapply subscript_Raise.
  - intros e. unfold aggregate_arg.
    destruct (comprehension _ queries) as [l|e'] eqn:Hc; [done|].
    intros [= <-]. apply comprehension_Raise in Hc as (item&_&Hitem).
    destruct (subscript retrieved item.1) as [r|e''] eqn:Hr; [done|].
    injection Hitem as <-. by eapply subscript_Raise.
Qed.

Lemma inject_P_outcome (curve : list Q) (b : bundle) :
  (100 ≤ length curve ∧ is_Ok (inject_P curve b)) ∨
  (length curve < 100 ∧ inject_P curve b = Raise IndexError).
Proof.
  unfold inject_P. cbn [for_each]. unfold index.
  change (1 - 1) with 0. change (10 - 1) with 9.
  change (50 - 1) with 49. change (100 - 1) with 99.
  destruct (curve !! 0) as [v1|] eqn:H1; simpl.
  2: { apply lookup_ge_None in H1. right. split; [lia|done]. }
  destruct (curve !! 9) as [v10|] eqn:H10; simpl.
  2: { apply lookup_ge_None in H10. right. split; [lia|done]. }
  destruct (curve !! 49) as [v50|] eqn:H50; simpl.
  2: { apply lookup_ge_None in H50. right. split; [lia|done]. }
  destruct (curve !! 99) as [v100|] eqn:H100; simpl.
  2: { apply lookup_ge_None in H100. right. split; [lia|done]. }
  apply lookup_lt_Some in H100. left. split; [lia|by eexists].
Qed.

(** X13.  The injection of [P@1], [P@10], [P@50] and [P@100] goes through
    exactly when the curve has at least 100 entries; otherwise it stops with
    an [IndexError]. *)
Theorem inject_P_raise_iff (curve : list Q) (b : bundle) :
  (is_Ok (inject_P curve b) ↔ 100 ≤ length curve) ∧
  (∀ e, inject_P curve b = Raise e → e = IndexError).
Proof.
  destruct (inject_P_outcome curve b) as [[Hlen [b' Hb]]|[Hlen Hb]];
    rewrite Hb.
  - split; [split; [done|by eexists]|by intros e [=]].
  - split; [split; [by intros [? [=]]|lia]|by intros e [= <-]].
Qed.

(** *** The order of a run *)

Lemma follows_ret {A} (a : A) : follows (mret a) [].
Proof.
  intros w. exists []. simpl. rewrite app_nil_r. split_and!; done.
Qed.

Lemma follows_lift {A} (r : result A) : follows (lift r) [].
Proof.
  intros w. exists []. simpl. rewrite app_nil_r. split_and!; done.
Qed.

Lemma follows_emit (e : event) : follows (emit e) [event_kind e].
Proof. intros w. exists [e]. simpl. split_and!; done. Qed.

Lemma follows_call (f : W → result retrieval * W) : follows (call f) [].
Proof.
  intros w. exists []. unfold call. destruct (f (ext w)) as [r x].
  simpl. rewrite app_nil_r. split_and!; done.
Qed.

Lemma follows_bind {A B} (m : M A) (f : A → M B) s1 s2 :
  follows m s1 → (∀ a, follows (f a) s2) → follows (m ≫= f) (s1 ++ s2).
Proof.
  intros Hm Hf w. unfold mbind, M_bind.
  destruct (Hm w) as (evs1&Hlog1&Hpre1&Hall1).
  destruct (m w) as [[a|e] w1]; simpl in *.
  - destruct (Hf a w1) as (evs2&Hlog2&Hpre2&Hall2).
    exists (evs1 ++ evs2). rewrite Hlog2, Hlog1, app_assoc, fmap_app.
    rewrite Hall1 by (by eexists).
    split_and!; [done|by apply prefix_app|]. intros Hok. by rewrite Hall2.
  - exists evs1. split_and!; [done|by apply prefix_app_r|by intros [? [=]]].
Qed.

Lemma follows_eq {A} (m : M A) s s' : follows m s → s = s' → follows m s'.
Proof. by intros ? <-. Qed.

Lemma follows_for_eachM {A S} (body : S → A → M S) (g : A → list kind)
    (l : list A) (s : S) :
  (∀ s x, follows (body s x) (g x)) →
  follows (for_eachM body l s) (x ← l; g x).
Proof.
  intros Hbody. revert s. induction l as [|x l IH]; intros s.
  - apply follows_ret.
  - cbn [for_eachM]. eapply follows_eq; [by apply follows_bind|done].
Qed.

Lemma method_step_follows a algo_params feats queries st method :
  follows (method_step a algo_params feats queries st method)
    [KInvoke method; KScore; KAggregate].
Proof.
  unfold method_step.
  apply (follows_bind _ _ [] [KInvoke method; KScore; KAggregate]);
    [apply follows_lift|]. intros p.
  apply (follows_bind _ _ [] [KInvoke method; KScore; KAggregate]);
    [apply follows_lift|]. intros f.
  apply (follows_bind _ _ [KInvoke method] [KScore; KAggregate]);
    [apply follows_emit|]. intros _.
  apply (follows_bind _ _ [] [KScore; KAggregate]);
    [apply follows_call|]. intros retrieved.
  apply (follows_bind _ _ [] [KScore; KAggregate]);
    [apply follows_lift|]. intros sargs.
  apply (follows_bind _ _ [KScore] [KAggregate]);
    [apply follows_emit|]. intros _.
  apply (follows_bind _ _ [] [KAggregate]); [apply follows_lift|]. intros curve.
  apply (follows_bind _ _ [] [KAggregate]); [apply follows_lift|]. intros arg.
  apply (follows_bind _ _ [KAggregate] []); [apply follows_emit|]. intros _.
  apply (follows_bind _ _ [] []); [apply follows_lift|]. intros b.
  apply follows_ret.
Qed.

(** X14.  A run works through the rounds in order and, within a round,
    through the requested methods in order, invoking, scoring and
    aggregating each: what it logs is always a prefix of that schedule, and
    the whole schedule when it returns. *)
Theorem run_follows_schedule a algo_params feats queries (w : world) :
  let out := run_benchmarks a algo_params feats queries w in
  ∃ evs,
    log out.2 = log w ++ evs ∧
    event_kind <$> evs `prefix_of` schedule (range (rounds a)) (methods a) ∧
    (is_Ok out.1 →
     event_kind <$> evs = schedule (range (rounds a)) (methods a)).
Proof.
  apply (follows_for_eachM _ (λ r, KRound r :: sweep_schedule (methods a))).
  intros st r.
  apply (follows_bind _ _ [KRound r] (sweep_schedule (methods a)));
    [apply follows_emit|]. intros _.
  apply (follows_for_eachM _ (λ m, [KInvoke m; KScore; KAggregate])).
  intros s x. apply method_step_follows.
Qed.

(** *** No round *)


(** *** How many bundles and curves a run collects *)

Lemma method_step_counts a algo_params feats queries st x w st' w' m :
  method_step a algo_params feats queries st x w = (Ok st', w') →
  length (default [] (dict_get m st'.1))
  = length (default [] (dict_get m st.1)) + (if decide (x = m) then 1 else 0) ∧
  length (default [] (dict_get m st'.2))
  = length (default [] (dict_get m st.2)) + (if decide (x = m) then 1 else 0).
Proof.
  intros (p&f&retrieved&y&sargs&curve&arg&b&_&_&_&_&_&_&->&_)%method_step_Ok.
  cbn [fst snd]. case_decide as Hm.
  - subst. rewrite !dict_get_append_to. simpl. by rewrite !length_app.
  - unfold append_to. rewrite !dict_get_set_ne by done. lia.
Qed.

Lemma sweep_counts a algo_params feats queries ms : ∀ st w st' w' m,
  for_eachM (method_step a algo_params feats queries) ms st w = (Ok st', w') →
  length (default [] (dict_get m st'.1))
  = length (default [] (dict_get m st.1)) + length (filter (λ x, x = m) ms) ∧
  length (default [] (dict_get m st'.2))
  = length (default [] (dict_get m st.2)) + length (filter (λ x, x = m) ms).
Proof.
  induction ms as [|x ms IH]; intros st w st' w' m; cbn [for_eachM].
  - intros [= <- _]. simpl. lia.
  - intros (st1&w1&Hstep&Hrest)%bindM_Ok.
    destruct (IH _ _ _ _ m Hrest) as [-> ->].
    destruct (method_step_counts _ _ _ _ _ _ _ _ _ m Hstep) as [-> ->].
    rewrite filter_cons. case_decide; simpl; lia.
Qed.

(** X16.  When a run returns, every method name has as many bundles as
    curves: one per round and per occurrence of the name among the requested
    methods. *)
Theorem run_collects_per_round a algo_params feats queries (w : world)
    st w' (m : string) :
  run_benchmarks a algo_params feats queries w = (Ok st, w') →
  length (default [] (dict_get m st.1))
  = Z.to_nat (rounds a) * length (filter (λ x, x = m) (methods a)) ∧
  length (default [] (dict_get m st.2))
  = Z.to_nat (rounds a) * length (filter (λ x, x = m) (methods a)).
Proof.
  unfold run_benchmarks, range.
  assert (∀ n k st0 w0,
    for_eachM (λ st r, _ ← emit (EvRound r);
        for_eachM (method_step a algo_params feats queries) (methods a) st)
      (seq k n) st0 w0 = (Ok st, w') →
    length (default [] (dict_get m st.1))
    = length (default [] (dict_get m st0.1))
      + n * length (filter (λ x, x = m) (methods a)) ∧
    length (default [] (dict_get m st.2))
    = length (default [] (dict_get m st0.2))
      + n * length (filter (λ x, x = m) (methods a))) as Hgen.
  { induction n as [|n IH]; intros k st0 w0; cbn [seq for_eachM].
    - intros [= <- _]. lia.
    - intros (st1&w1&(?&w2&_&Hsweep)%bindM_Ok&Hrest)%bindM_Ok.
      destruct (IH _ _ _ Hrest) as [-> ->].
      destruct (sweep_counts _ _ _ _ _ _ _ _ _ m Hsweep) as [-> ->]. lia. }
  intros Hrun. destruct (Hgen _ _ _ _ Hrun) as [-> ->]. done.
Qed.
(** *** When a step returns *)


Lemma inject_P_lookup (curve : list Q) (b0 b : bundle) :
  inject_P curve b0 = Ok b →
  ∀ pk, pk ∈ [1; 10; 50; 100] →
    ∃ v, curve !! (pk - 1) = Some v ∧ dict_get (P_at pk) b = Some v.
Proof.
  intros (v1&v10&v50&v100&H1&H10&H50&H100&->)%inject_P_Ok pk Hpk.
  repeat (apply elem_of_cons in Hpk as [->|Hpk]).
  - exists v1. split; [done|]. change (P_at 1) with "P@1".
    by rewrite 3!dict_get_set_ne, dict_get_set_eq.
  - exists v10. split; [done|]. change (P_at 10) with "P@10".
    by rewrite 2!dict_get_set_ne, dict_get_set_eq.
  - exists v50. split; [done|]. change (P_at 50) with "P@50".
    by rewrite dict_get_set_ne, dict_get_set_eq.
  - exists v100. split; [done|]. change (P_at 100) with "P@100".
    by rewrite dict_get_set_eq.
  - by apply elem_of_nil in Hpk.
Qed.

(** X18.  When the scorer only returns precisions between 0 and 1, so are
    all entries of the curve of a step that returns, and with them the
    injected [P@1], [P@10], [P@50] and [P@100]. *)
Theorem injected_precisions_bounded
    a algo_params feats queries st method (w : world) st' w' :
  (∀ ks rel ret ex, Forall unit_interval (precision_at_k ks rel ret ex)) →
  method_step a algo_params feats queries st method w = (Ok st', w') →
  ∃ curve b,
    dict_get method st'.2 = Some (default [] (dict_get method st.2) ++ [curve]) ∧
    dict_get method st'.1 = Some (default [] (dict_get method st.1) ++ [b]) ∧
    Forall unit_interval curve ∧
    ∀ pk, pk ∈ [1; 10; 50; 100] →
      ∃ v, dict_get (P_at pk) b = Some v ∧ unit_interval v.
Proof.
  intros Hscorer
    (p&f&retrieved&x&sargs&curve&arg&b&_&_&_&Hcurve&_&Hb&->&_)%method_step_Ok.
  pose proof (inject_P_lookup _ _ _ Hb) as HP.
  exists curve, b. cbn [fst snd]. rewrite !dict_get_append_to.
  split_and!; [done..| |].
  - eapply np_mean_axis0_unit; [done|]. apply Forall_fmap, Forall_forall.
    intros t _. apply Hscorer.
  - assert (Forall unit_interval curve) as Hunit.
    { eapply np_mean_axis0_unit; [done|]. apply Forall_fmap, Forall_forall.
      intros t _. apply Hscorer. }
    intros pk Hpk. destruct (HP pk Hpk) as (v&Hv&Hget).
    exists v. split; [done|]. rewrite Forall_forall in Hunit.
    by eapply Hunit, list_elem_of_lookup_2.
Qed.
End harness_more.

(** ** Further properties of the reducer *)

Lemma comprehension_keys {A K V} (g : A → result (K * V)) (key : A → K)
    (l : list A) (items : list (K * V)) :
  (∀ x y, x ∈ l → g x = Ok y → y.1 = key x) →
  comprehension g l = Ok items → items.*1 = key <$> l.
Proof.
  intros Hkey Hc%comprehension_Ok.
  induction Hc as [|x y l items Hxy _ IH]; [done|]. csimpl.
  rewrite (Hkey x y) by (done || left). f_equal. apply IH.
  intros x' y' ?. apply Hkey. by right.
Qed.

(** X19.  The printed tables keep the order of the run: the methods appear
    in the order of the bundle table, and the metric names of a method in
    the order of its first bundle. *)
Theorem reduce_preserves_order {X} (f : list Q → X)
    (metrics : dict string (list bundle)) (table : dict string (dict string X)) :
  NoDup (dict_keys metrics) →
  reduce f metrics = Ok table →
  dict_keys table = dict_keys metrics ∧
  ∀ method lists (first : bundle) row,
    dict_get method metrics = Some lists →
    lists !! 0 = Some first →
    NoDup (dict_keys first) →
    dict_get method table = Some row →
    dict_keys row = dict_keys first.
Proof.
  intros Hnd (items&Hitems&->)%fmap_Ok.
  assert (items.*1 = metrics.*1) as Hkeys.
  { apply (comprehension_keys _ fst _ _) in Hitems; [done|].
    intros ml y _ (first&_&(row&_&[= <-])%bind_Ok)%bind_Ok. done. }
  rewrite dict_of_items_NoDup by (by rewrite Hkeys).
  split; [done|].
  intros method lists first row Hlists Hfirst Hndf Hrow.
  apply dict_get_Some_elem, list_elem_of_lookup_1 in Hrow as [i Hi].
  apply comprehension_Ok in Hitems.
  destruct (Forall2_lookup_r _ _ _ _ _ Hitems Hi) as ([method' lists']&Hml&Hrow).
  apply bind_Ok in Hrow as (first'&Hfirst'&(r&Hr&[= -> <-])%bind_Ok).
  cbn [fst snd] in *.
  apply list_elem_of_lookup_2, (dict_get_elem _ _ _ Hnd) in Hml.
  rewrite Hlists in Hml. injection Hml as <-.
  unfold index in Hfirst'. rewrite Hfirst in Hfirst'. injection Hfirst' as <-.
  apply (comprehension_keys _ (@Datatypes.id string) _ _) in Hr.
  - rewrite list_fmap_id in Hr.
    rewrite dict_of_items_NoDup by (by rewrite Hr). done.
  - intros metric y _ (vals&_&[= <-])%bind_Ok. done.
Qed.

Lemma reduce_preserves_order_witness :
  ∃ table : dict string (dict string Q),
    reduce np_mean three_rounds = Ok table ∧
    dict_keys table = dict_keys three_rounds ∧
    ∀ method lists (first : bundle) row,
      dict_get method three_rounds = Some lists →
      lists !! 0 = Some first →
      NoDup (dict_keys first) →
      dict_get method table = Some row →
      dict_keys row = dict_keys first.
Proof.
  destruct (reduce_Ok np_mean three_rounds three_rounds_uniform)
    as (table&Htable&_).
  exists table. split; [exact Htable|].
  apply (reduce_preserves_order np_mean three_rounds table).
  - by apply (bool_decide_unpack _).
  - exact Htable.
Defined.






(** ** The further properties on the small benchmark *)


Lemma toy_run_benchmarks_returns :
  run_benchmarks (toy_method [100; 1; 9; 2]%Z) (toy_method [6; 4; 200]%Z)
    (toy_method []) (toy_method []) toy_precision_at_k toy_avg_query_metrics tt
    (toy_args ["Baseline"; "CLUE"]) [] tt toy_queries toy_world
  = (Ok toy_run_tables, (toy_run ["Baseline"; "CLUE"] toy_world).2).
Proof. vm_compute. reflexivity. Qed.

Lemma run_collects_per_round_witness :
  length (default [] (dict_get "CLUE" toy_run_tables.1))
  = Z.to_nat (rounds (toy_args ["Baseline"; "CLUE"]))
    * length (filter (λ x, x = "CLUE")
                (methods (toy_args ["Baseline"; "CLUE"]))) ∧
  length (default [] (dict_get "CLUE" toy_run_tables.2))
  = Z.to_nat (rounds (toy_args ["Baseline"; "CLUE"]))
    * length (filter (λ x, x = "CLUE")
                (methods (toy_args ["Baseline"; "CLUE"]))).
Proof.
  apply (run_collects_per_round
           (toy_method [100; 1; 9; 2]%Z) (toy_method [6; 4; 200]%Z)
           (toy_method []) (toy_method []) toy_precision_at_k
           toy_avg_query_metrics tt (toy_args ["Baseline"; "CLUE"]) [] tt
           toy_queries toy_world toy_run_tables
           (toy_run ["Baseline"; "CLUE"] toy_world).2 "CLUE").
  exact toy_run_benchmarks_returns.
Defined.


Lemma quotient_unit (n k : nat) :
  n ≤ k → unit_interval (inject_Z (Z.of_nat n) / inject_Z (Z.of_nat k)).
Proof.
  intros Hnk. destruct k as [|k].
  { replace n with 0 by lia. by split. }
  assert (0 < inject_Z (Z.of_nat (S k)))%Q as Hpos.
  { change 0%Q with (inject_Z 0). rewrite <-Zlt_Qlt. lia. }
  split.
  - apply Qle_shift_div_l; [done|]. rewrite Qmult_0_l.
    change 0%Q with (inject_Z 0). rewrite <-Zle_Qle. lia.
  - apply Qle_shift_div_r; [done|]. rewrite Qmult_1_l, <-Zle_Qle. lia.
Qed.

Lemma toy_precision_at_k_unit ks rel ret ex :
  Forall unit_interval (toy_precision_at_k ks rel ret ex).
Proof.
  unfold toy_precision_at_k. apply Forall_fmap, Forall_forall.
  intros k _. unfold compose. apply quotient_unit.
  etrans; [apply length_filter|]. rewrite length_take. lia.
Qed.


Lemma injected_precisions_bounded_witness :
  ∃ curve b,
    dict_get "Baseline" toy_tables.2
    = Some (default [] (dict_get "Baseline" ([] : dict string (list (list Q))))
            ++ [curve]) ∧
    dict_get "Baseline" toy_tables.1
    = Some (default [] (dict_get "Baseline" ([] : dict string (list bundle)))
            ++ [b]) ∧
    Forall unit_interval curve ∧
    ∀ pk, pk ∈ [1; 10; 50; 100] →
      ∃ v, dict_get (P_at pk) b = Some v ∧ unit_interval v.
Proof.
  apply (injected_precisions_bounded
           (toy_method [100; 1; 9; 2]%Z) (toy_method [6; 4; 200]%Z)
           (toy_method []) (toy_method []) toy_precision_at_k
           toy_avg_query_metrics tt (toy_args ["Baseline"]) [] tt
           toy_queries ([], []) "Baseline" toy_world toy_tables
           (toy_step "Baseline" toy_world).2).
  - apply toy_precision_at_k_unit.
  - exact toy_method_step_returns.
Defined.
